(** * A verified model of the library catalogue (library_proj.py)

    The development embeds the two classes of [library_proj.py], [Books] and
    [Books_Library], together with the part of CPython's [json] codec that
    [save_book_database] and [load_book_library] go through, and proves the
    properties of the catalogue's specification about them.

    Modelling choices.
    - A Python [str] is the list of its code points ([pystr]).
    - A [Books] instance is an object with identity: the store holds
      references ([loc]) into a heap, so that aliasing, in-place update of
      [status], [list.remove] (which compares by identity, [Books] defines no
      [__eq__]) and the [set] of search results behave as in Python.
    - Every method is a computation in a state-and-exception monad over the
      heap, the list [self.books], the backing file and the standard output.
    - The backing file is the text that Python's text layer reads and writes;
      the file named by [self.file_name] is the only one the class touches,
      and writing to it is assumed to succeed.  Below that text sit newline
      translation, which changes nothing that the JSON decoder tells apart,
      and the UTF-8 codec, which is defined here and shown exact on the text
      that [save_book_database] writes for records of Unicode text.
    - [str.lower] is the interpreter's Unicode lower-casing; it is a
      parameter of [search_book]. *)

From Stdlib Require Import NArith ZArith Lia String Ascii.
From stdpp Require Import base option list numbers functions gmap.

#[local] Set Warnings "-register-all".

(* ===================================================================== *)
(** * Part I: definitions *)
(* ===================================================================== *)

(** ** Python strings *)

(** A character is its code point; a string is the list of its characters. *)
Abbreviation char := N (only parsing).
Abbreviation pystr := (list N).



Definition is_continuation (b : N) : bool := ((0x80 <=? b) && (b <? 0xc0))%N.

Fixpoint utf8_decode (bytes : list N) : option pystr :=
  match bytes with
  | [] => Some []
  | b :: r =>
      if (b <? 0x80)%N then cons b <$> utf8_decode r
      else if (b <? 0xc0)%N then None
      else if (b <? 0xe0)%N then
        match r with
        | b1 :: r' =>
            let c := ((b - 0xc0) * 64 + (b1 - 0x80))%N in
            if is_continuation b1 && (0x80 <=? c)%N
            then cons c <$> utf8_decode r' else None
        | _ => None
        end
      else if (b <? 0xf0)%N then
        match r with
        | b1 :: b2 :: r' =>
            let c := ((b - 0xe0) * 4096 + (b1 - 0x80) * 64 + (b2 - 0x80))%N in
            if is_continuation b1 && is_continuation b2 && (0x800 <=? c)%N
               && negb ((0xd800 <=? c) && (c <=? 0xdfff))%N
            then cons c <$> utf8_decode r' else None
        | _ => None
        end
      else if (b <? 0xf8)%N then
        match r with
        | b1 :: b2 :: b3 :: r' =>
            let c := ((b - 0xf0) * 262144 + (b1 - 0x80) * 4096 + (b2 - 0x80) * 64
                      + (b3 - 0x80))%N in
            if is_continuation b1 && is_continuation b2 && is_continuation b3
               && (0x10000 <=? c)%N && (c <? 0x110000)%N
            then cons c <$> utf8_decode r' else None
        | _ => None
        end
      else None
  end.

(** String literals are written as in the source file, which is UTF-8:
    [literal] decodes the bytes of a Rocq string. *)
Definition literal (s : string) : pystr :=
  default [] (utf8_decode (map N_of_ascii (list_ascii_of_string s))).

(** The ASCII characters that the program and the JSON syntax name. *)
Abbreviation ch_backspace := 8%N (only parsing).
Abbreviation ch_tab := 9%N (only parsing).
Abbreviation ch_newline := 10%N (only parsing).
Abbreviation ch_formfeed := 12%N (only parsing).
Abbreviation ch_return := 13%N (only parsing).
Abbreviation ch_space := 32%N (only parsing).
Abbreviation ch_quote := 34%N (only parsing).
Abbreviation ch_plus := 43%N (only parsing).
Abbreviation ch_comma := 44%N (only parsing).
Abbreviation ch_minus := 45%N (only parsing).
Abbreviation ch_dot := 46%N (only parsing).
Abbreviation ch_slash := 47%N (only parsing).
Abbreviation ch_0 := 48%N (only parsing).
Abbreviation ch_9 := 57%N (only parsing).
Abbreviation ch_colon := 58%N (only parsing).
Abbreviation ch_A := 65%N (only parsing).
Abbreviation ch_E := 69%N (only parsing).
Abbreviation ch_F := 70%N (only parsing).
Abbreviation ch_lbracket := 91%N (only parsing).
Abbreviation ch_backslash := 92%N (only parsing).
Abbreviation ch_rbracket := 93%N (only parsing).
Abbreviation ch_a := 97%N (only parsing).
Abbreviation ch_b := 98%N (only parsing).
Abbreviation ch_e := 101%N (only parsing).
Abbreviation ch_f := 102%N (only parsing).
Abbreviation ch_n := 110%N (only parsing).
Abbreviation ch_r := 114%N (only parsing).
Abbreviation ch_t := 116%N (only parsing).
Abbreviation ch_u := 117%N (only parsing).
Abbreviation ch_lbrace := 123%N (only parsing).
Abbreviation ch_rbrace := 125%N (only parsing).

(** [needle in hay] for two strings: [needle] occurs as a contiguous block. *)
Fixpoint startswith (p s : pystr) : bool :=
  match p, s with
  | [], _ => true
  | _ :: _, [] => false
  | a :: p', b :: s' => (a =? b)%N && startswith p' s'
  end.

Fixpoint str_contains (needle hay : pystr) : bool :=
  startswith needle hay ||
  match hay with
  | [] => false
  | _ :: hay' => str_contains needle hay'
  end.

(** ** The JSON codec *)

Module Json.

Local Open Scope N_scope.

(** What [json.load] can produce.  A float keeps the text of its literal: its
    numeric value plays no role in the catalogue. *)
Inductive json :=
| JNull
| JBool (b : bool)
| JInt (z : Z)
| JFloat (literal : pystr)
| JStr (s : pystr)
| JList (items : list json)
| JDict (items : list (pystr * json)).

(** Result of a scanning function: the value and the rest of the input, a
    [JSONDecodeError], or exhaustion of the recursion budget of the model. *)
Inductive parsed (A : Type) :=
| Parsed (a : A) (rest : pystr)
| Malformed
| OutOfFuel.
Arguments Parsed {A} a rest.
Arguments Malformed {A}.
Arguments OutOfFuel {A}.

(** *** Encoder: [json.dump(book_data, file, indent=2, ensure_ascii=False)] *)

Definition hexdigit (d : N) : char := if d <? 10 then ch_0 + d else ch_a + (d - 10).

(** [ESCAPE_DCT] of [json.encoder]: backslash, quote, the five short escapes,
    and [\u00xx] for the other characters below U+0020. *)
Definition escape_char (c : char) : pystr :=
  if c =? ch_backslash then [ch_backslash; ch_backslash]
  else if c =? ch_quote then [ch_backslash; ch_quote]
  else if c =? ch_backspace then [ch_backslash; ch_b]
  else if c =? ch_formfeed then [ch_backslash; ch_f]
  else if c =? ch_newline then [ch_backslash; ch_n]
  else if c =? ch_return then [ch_backslash; ch_r]
  else if c =? ch_tab then [ch_backslash; ch_t]
  else if c <? 0x20 then
    [ch_backslash; ch_u; ch_0; ch_0; hexdigit (c / 16); hexdigit (c mod 16)]
  else [c].

Definition encode_basestring (s : pystr) : pystr :=
  ch_quote :: flat_map escape_char s ++ [ch_quote].

(** ['\n' + _indent * _current_indent_level] with [_indent = "  "]. *)
Definition newline_indent (level : nat) : pystr :=
  ch_newline :: repeat ch_space (2 * level)%nat.

Fixpoint join_chunks (sep : pystr) (chunks : list pystr) : pystr :=
  match chunks with
  | [] => []
  | [c] => c
  | c :: cs => c ++ sep ++ join_chunks sep cs
  end.

Definition encode_item (kv : pystr * pystr) : pystr :=
  encode_basestring kv.1 ++ [ch_colon; ch_space] ++ encode_basestring kv.2.

(** [_iterencode_dict] on a dict whose keys and values are [str]. *)
Definition iterencode_dict (dct : list (pystr * pystr)) (level : nat) : pystr :=
  match dct with
  | [] => [ch_lbrace; ch_rbrace]
  | _ =>
      [ch_lbrace] ++ newline_indent (S level)
        ++ join_chunks (ch_comma :: newline_indent (S level)) (map encode_item dct)
        ++ newline_indent level ++ [ch_rbrace]
  end.

(** [_iterencode_list] on a list of such dicts. *)
Definition iterencode_list (lst : list (list (pystr * pystr))) (level : nat) : pystr :=
  match lst with
  | [] => [ch_lbracket; ch_rbracket]
  | _ =>
      [ch_lbracket] ++ newline_indent (S level)
        ++ join_chunks (ch_comma :: newline_indent (S level))
             (map (λ d, iterencode_dict d (S level)) lst)
        ++ newline_indent level ++ [ch_rbracket]
  end.

Definition dump (book_data : list (list (pystr * pystr))) : pystr :=
  iterencode_list book_data 0.

(** *** Decoder: [json.load(file)]

    The scanner of CPython's [json.decoder] and [json.scanner], in strict
    mode.  Every failure of the scanner is a [JSONDecodeError]; positions and
    messages are not kept.  Two limits of the interpreter are left out: the
    bound on the number of digits of an integer literal and the recursion
    limit, which nested arrays and objects more than about a thousand deep
    exceed. *)

Definition is_ws (c : char) : bool :=
  (c =? ch_space) || (c =? ch_tab) || (c =? ch_newline) || (c =? ch_return).

Fixpoint skip_ws (s : pystr) : pystr :=
  match s with
  | [] => []
  | c :: r => if is_ws c then skip_ws r else s
  end.

Definition is_digit (c : char) : bool := (ch_0 <=? c) && (c <=? ch_9).

Definition hexval (c : char) : option N :=
  if (ch_0 <=? c) && (c <=? ch_9) then Some (c - ch_0)
  else if (ch_a <=? c) && (c <=? ch_f) then Some (c - ch_a + 10)
  else if (ch_A <=? c) && (c <=? ch_F) then Some (c - ch_A + 10)
  else None.

Definition hex4 (h1 h2 h3 h4 : char) : option N :=
  match hexval h1, hexval h2, hexval h3, hexval h4 with
  | Some a, Some b, Some c, Some d => Some (((a * 16 + b) * 16 + c) * 16 + d)
  | _, _, _, _ => None
  end.

(** The [BACKSLASH] table of [json.decoder]. *)
Definition BACKSLASH (e : char) : option char :=
  if e =? ch_quote then Some ch_quote
  else if e =? ch_backslash then Some ch_backslash
  else if e =? ch_slash then Some ch_slash
  else if e =? ch_b then Some ch_backspace
  else if e =? ch_f then Some ch_formfeed
  else if e =? ch_n then Some ch_newline
  else if e =? ch_r then Some ch_return
  else if e =? ch_t then Some ch_tab
  else None.

Definition is_high_surrogate (u : N) : bool := (0xd800 <=? u) && (u <=? 0xdbff).
Definition is_low_surrogate (u : N) : bool := (0xdc00 <=? u) && (u <=? 0xdfff).
Definition join_surrogates (u u2 : N) : N :=
  0x10000 + ((u - 0xd800) * 1024 + (u2 - 0xdc00)).

Definition parsed_cons (c : char) (p : parsed pystr) : parsed pystr :=
  match p with
  | Parsed v r => Parsed (c :: v) r
  | Malformed => Malformed
  | OutOfFuel => OutOfFuel
  end.

(** [scanstring] in strict mode, started after the opening quote. *)
Fixpoint scanstring (s : pystr) : parsed pystr :=
  match s with
  | [] => Malformed
  | c :: rest =>
      if c =? ch_quote then Parsed [] rest
      else if c =? ch_backslash then
        match rest with
        | [] => Malformed
        | e :: rest1 =>
            if e =? ch_u then
              match rest1 with
              | h1 :: h2 :: h3 :: h4 :: rest2 =>
                  match hex4 h1 h2 h3 h4 with
                  | None => Malformed
                  | Some uni =>
                      if is_high_surrogate uni then
                        match rest2 with
                        | b :: u :: g1 :: g2 :: g3 :: g4 :: rest3 =>
                            if (b =? ch_backslash) && (u =? ch_u) then
                              match hex4 g1 g2 g3 g4 with
                              | None => Malformed
                              | Some uni2 =>
                                  if is_low_surrogate uni2
                                  then parsed_cons (join_surrogates uni uni2) (scanstring rest3)
                                  else parsed_cons uni (scanstring rest2)
                              end
                            else parsed_cons uni (scanstring rest2)
                        | _ => parsed_cons uni (scanstring rest2)
                        end
                      else parsed_cons uni (scanstring rest2)
                  end
              | _ => Malformed
              end
            else
              match BACKSLASH e with
              | Some ch => parsed_cons ch (scanstring rest1)
              | None => Malformed
              end
        end
      else if c <? 0x20 then Malformed
      else parsed_cons c (scanstring rest)
  end.

(** [NUMBER_RE]: an optional minus sign, then 0 or a non-zero digit followed
    by digits; optionally a dot with at least one digit; optionally e or E,
    an optional sign and at least one digit. *)
Fixpoint span_digits (s : pystr) : pystr * pystr :=
  match s with
  | [] => ([], [])
  | c :: r => if is_digit c then let '(d, r') := span_digits r in (c :: d, r') else ([], s)
  end.

Definition int_of_digits (ds : pystr) : Z :=
  fold_left (λ acc c, acc * 10 + Z.of_N (c - ch_0))%Z ds 0%Z.

Definition match_int (s : pystr) : option (pystr * pystr) :=
  match s with
  | [] => None
  | c :: r =>
      if c =? ch_0 then Some ([c], r)
      else if is_digit c then let '(d, r') := span_digits r in Some (c :: d, r')
      else None
  end.

Definition match_frac (s : pystr) : pystr * pystr :=
  match s with
  | [] => ([], [])
  | c :: r =>
      if c =? ch_dot then
        match span_digits r with
        | ([], _) => ([], s)
        | (d, r') => (c :: d, r')
        end
      else ([], s)
  end.

Definition match_exp (s : pystr) : pystr * pystr :=
  match s with
  | [] => ([], [])
  | c :: r =>
      if (c =? ch_e) || (c =? ch_E) then
        let '(sign, r1) :=
          match r with
          | sg :: r1 => if (sg =? ch_minus) || (sg =? ch_plus) then ([sg], r1) else ([], r)
          | [] => ([], r)
          end in
        match span_digits r1 with
        | ([], _) => ([], s)
        | (d, r') => (c :: sign ++ d, r')
        end
      else ([], s)
  end.

Definition match_number (s : pystr) : option (json * pystr) :=
  let '(sign, s1) :=
    match s with
    | c :: r => if c =? ch_minus then ([c], r) else ([], s)
    | [] => ([], s)
    end in
  match match_int s1 with
  | None => None
  | Some (i, s2) =>
      let '(f, s3) := match_frac s2 in
      let '(e, s4) := match_exp s3 in
      match f, e with
      | [], [] =>
          Some (JInt (match sign with [] => int_of_digits i | _ => - int_of_digits i end)%Z, s4)
      | _, _ => Some (JFloat (sign ++ i ++ f ++ e), s4)
      end
  end.

Fixpoint strip_prefix (p s : pystr) : option pystr :=
  match p, s with
  | [], _ => Some s
  | _ :: _, [] => None
  | a :: p', b :: s' => if a =? b then strip_prefix p' s' else None
  end.

(** [dict(pairs)]: a later pair with a key already present replaces its
    value and keeps the key's position. *)
Fixpoint dict_set (k : pystr) (v : json) (d : list (pystr * json)) : list (pystr * json) :=
  match d with
  | [] => [(k, v)]
  | (k', v') :: d' => if bool_decide (k = k') then (k, v) :: d' else (k', v') :: dict_set k v d'
  end.

Definition dict_of_pairs (pairs : list (pystr * json)) : list (pystr * json) :=
  fold_left (λ d kv, dict_set kv.1 kv.2 d) pairs [].

Definition dict_get (k : pystr) (d : list (pystr * json)) : option json :=
  snd <$> find (λ kv, bool_decide (kv.1 = k)) d.

(** The literals [null], [true], [false], [NaN], [Infinity], [-Infinity]. *)
Definition lit_null : pystr := Eval cbv in literal "null".
Definition lit_true : pystr := Eval cbv in literal "true".
Definition lit_false : pystr := Eval cbv in literal "false".
Definition lit_nan : pystr := Eval cbv in literal "NaN".
Definition lit_inf : pystr := Eval cbv in literal "Infinity".
Definition lit_neg_inf : pystr := Eval cbv in literal "-Infinity".

Definition scan_constant (s : pystr) : parsed json :=
  match strip_prefix lit_null s with
  | Some r => Parsed JNull r
  | None =>
  match strip_prefix lit_true s with
  | Some r => Parsed (JBool true) r
  | None =>
  match strip_prefix lit_false s with
  | Some r => Parsed (JBool false) r
  | None =>
  match match_number s with
  | Some (v, r) => Parsed v r
  | None =>
  match strip_prefix lit_nan s with
  | Some r => Parsed (JFloat lit_nan) r
  | None =>
  match strip_prefix lit_inf s with
  | Some r => Parsed (JFloat lit_inf) r
  | None =>
  match strip_prefix lit_neg_inf s with
  | Some r => Parsed (JFloat lit_neg_inf) r
  | None => Malformed
  end end end end end end end.

(** [scan_once], [JSONArray] and [JSONObject].  The three recurse into each
    other on the rest of the input; [fuel] bounds the number of nested calls
    and [loads] below supplies enough of it for every input. *)
Fixpoint scan_once (fuel : nat) (s : pystr) {struct fuel} : parsed json :=
  match fuel with
  | O => OutOfFuel
  | S fuel' =>
      match s with
      | [] => Malformed
      | c :: r =>
          if c =? ch_quote then
            match scanstring r with
            | Parsed v r' => Parsed (JStr v) r'
            | Malformed => Malformed
            | OutOfFuel => OutOfFuel
            end
          else if c =? ch_lbrace then
            match skip_ws r with
            | [] => Malformed
            | c1 :: r1 =>
                if c1 =? ch_rbrace then Parsed (JDict []) r1
                else if c1 =? ch_quote then
                  match object_members fuel' r1 with
                  | Parsed pairs r' => Parsed (JDict (dict_of_pairs pairs)) r'
                  | Malformed => Malformed
                  | OutOfFuel => OutOfFuel
                  end
                else Malformed
            end
          else if c =? ch_lbracket then
            match skip_ws r with
            | [] => Malformed
            | c1 :: r1 =>
                if c1 =? ch_rbracket then Parsed (JList []) r1
                else
                  match array_items fuel' (c1 :: r1) with
                  | Parsed values r' => Parsed (JList values) r'
                  | Malformed => Malformed
                  | OutOfFuel => OutOfFuel
                  end
            end
          else scan_constant s
      end
  end

with array_items (fuel : nat) (s : pystr) {struct fuel} : parsed (list json) :=
  match fuel with
  | O => OutOfFuel
  | S fuel' =>
      match scan_once fuel' s with
      | Parsed v r =>
          match skip_ws r with
          | [] => Malformed
          | c :: r1 =>
              if c =? ch_rbracket then Parsed [v] r1
              else if c =? ch_comma then
                match array_items fuel' (skip_ws r1) with
                | Parsed vs r' => Parsed (v :: vs) r'
                | Malformed => Malformed
                | OutOfFuel => OutOfFuel
                end
              else Malformed
          end
      | Malformed => Malformed
      | OutOfFuel => OutOfFuel
      end
  end

with object_members (fuel : nat) (s : pystr) {struct fuel} : parsed (list (pystr * json)) :=
  match fuel with
  | O => OutOfFuel
  | S fuel' =>
      match scanstring s with
      | Parsed key r =>
          match skip_ws r with
          | [] => Malformed
          | c :: r1 =>
              if c =? ch_colon then
                match scan_once fuel' (skip_ws r1) with
                | Parsed v r2 =>
                    match skip_ws r2 with
                    | [] => Malformed
                    | c2 :: r3 =>
                        if c2 =? ch_rbrace then Parsed [(key, v)] r3
                        else if c2 =? ch_comma then
                          match skip_ws r3 with
                          | [] => Malformed
                          | c3 :: r4 =>
                              if c3 =? ch_quote then
                                match object_members fuel' r4 with
                                | Parsed ps r' => Parsed ((key, v) :: ps) r'
                                | Malformed => Malformed
                                | OutOfFuel => OutOfFuel
                                end
                              else Malformed
                          end
                        else Malformed
                    end
                | Malformed => Malformed
                | OutOfFuel => OutOfFuel
                end
              else Malformed
          end
      | Malformed => Malformed
      | OutOfFuel => OutOfFuel
      end
  end.

Definition enough_fuel (s : pystr) : nat := (2 * length s + 2)%nat.

(** [json.loads]: a leading byte-order mark is refused, then one value
    surrounded by white space must span the whole text. *)
Definition loads (s : pystr) : parsed json :=
  match s with
  | 0xfeff :: _ => Malformed
  | _ =>
      match scan_once (enough_fuel s) (skip_ws s) with
      | Parsed v r =>
          match skip_ws r with
          | [] => Parsed v []
          | _ :: _ => Malformed
          end
      | Malformed => Malformed
      | OutOfFuel => OutOfFuel
      end
  end.

End Json.

Import Json.

(** ** The record and the program state *)

(** [class Books]: five attributes, set by [__init__] from its arguments. *)
Record Books := mkBooks {
  id : pystr;
  title : pystr;
  author : pystr;
  year : pystr;
  status : pystr
}.

(** [vars(book).values()]: the attribute values in the order [__init__]
    assigns them. *)
Definition vars_values (book : Books) : list pystr :=
  [id book; title book; author book; year book; status book].

(** A reference to a [Books] object. *)
Abbreviation loc := nat (only parsing).

Record state := mkState {
  heap : loc → Books;        (* the objects *)
  next_loc : loc;            (* where the next object is created *)
  books : list loc;          (* [self.books] *)
  file : option pystr;       (* text of the file [self.file_name], if it exists *)
  stdout : list pystr        (* the arguments of the calls to [print] so far *)
}.

(** The exceptions that the methods raise or handle.  [Unmodelled] is no
    Python exception: it stops a run that leaves what the development
    represents, which is a record loaded with a field that is not a [str]
    (the type [Books] has strings only, as the data model of the catalogue),
    or the decoder out of fuel (which [JsonFacts.loads_fuel] excludes). *)
Inductive exn :=
| UnboundLocalError
| TypeError
| ValueError
| FileNotFoundError
| JSONDecodeError
| Unmodelled.

Inductive outcome (A : Type) :=
| Val (a : A)
| Exc (e : exn).
Arguments Val {A} a.
Arguments Exc {A} e.

(** ** The monad of methods: state and exceptions *)

Definition M (A : Type) : Type := state → outcome A * state.

#[global] Instance M_ret : MRet M := λ A a st, (Val a, st).

#[global] Instance M_bind : MBind M := λ A B f m st,
  match m st with
  | (Val a, st') => f a st'
  | (Exc e, st') => (Exc e, st')
  end.

Definition raise {A} (e : exn) : M A := λ st, (Exc e, st).

Definition try_except {A} (body : M A) (handler : exn → M A) : M A := λ st,
  match body st with
  | (Val a, st') => (Val a, st')
  | (Exc e, st') => handler e st'
  end.

Definition get : M state := λ st, (Val st, st).

Definition lift {A} (o : outcome A) : M A := λ st, (o, st).

Definition set_books (l : list loc) : M unit := λ st,
  (Val (), mkState (heap st) (next_loc st) l (file st) (stdout st)).

Definition set_status (book : loc) (s : pystr) : M unit := λ st,
  let b := heap st book in
  (Val (), mkState (<[book := mkBooks (id b) (title b) (author b) (year b) s]> (heap st))
                   (next_loc st) (books st) (file st) (stdout st)).

(** [Books(...)]: a new object. *)
Definition alloc (b : Books) : M loc := λ st,
  (Val (next_loc st),
   mkState (<[next_loc st := b]> (heap st)) (S (next_loc st)) (books st) (file st) (stdout st)).

Definition print (s : pystr) : M unit := λ st,
  (Val (), mkState (heap st) (next_loc st) (books st) (file st) (stdout st ++ [s])).

(** [open(self.file_name, "r")] and [file.read()]. *)
Definition read_file : M pystr := λ st,
  match file st with
  | Some text => (Val text, st)
  | None => (Exc FileNotFoundError, st)
  end.

(** [open(self.file_name, "w")] and the writes of [json.dump]. *)
Definition write_file (text : pystr) : M unit := λ st,
  (Val (), mkState (heap st) (next_loc st) (books st) (Some text) (stdout st)).

(** ** String constants of the program *)

Definition key_id : pystr := Eval cbv in literal "id".
Definition key_title : pystr := Eval cbv in literal "title".
Definition key_author : pystr := Eval cbv in literal "author".
Definition key_year : pystr := Eval cbv in literal "year".
Definition key_status : pystr := Eval cbv in literal "status".

Definition msg_load_error : pystr :=
  Eval cbv in literal "Ошибка чтения файла базы данных. Проверьте корректность содержимого.".

Definition msg_added : pystr :=
  Eval cbv in literal "Книга успешно добавлена" ++ [ch_newline].

Definition msg_delete_prefix : pystr := Eval cbv in literal "Ошибка: Книга с ID ".
Definition msg_delete_suffix : pystr := Eval cbv in literal " не найдена" ++ [ch_newline].

Definition msg_delete_not_found (id_delete : pystr) : pystr :=
  msg_delete_prefix ++ id_delete ++ msg_delete_suffix.

Definition msg_deleted : pystr :=
  Eval cbv in literal "Книга успешно удалена" ++ [ch_newline].

(** The book is available. *)
Definition status_available : pystr := Eval cbv in literal "В наличии".

(** The book is checked out. *)
Definition status_checked_out : pystr := Eval cbv in literal "Выдана".

Definition msg_status_changed : pystr := Eval cbv in literal "Статус изменён".

Definition msg_not_found : pystr := Eval cbv in literal "Книга не найдена".

Definition token_1 : pystr := Eval cbv in literal "1".

(** ** [class Books_Library] *)

(** The dict that [save_book_database] builds for one record. *)
Definition book_dict (book : Books) : list (pystr * pystr) :=
  [(key_id, id book); (key_title, title book); (key_author, author book);
   (key_year, year book); (key_status, status book)].

Definition save_book_database : M unit :=
  st ← get;
  let book_data := map (λ book, book_dict (heap st book)) (books st) in
  write_file (dump book_data).

(** [json.load(file)] on the text read from the file. *)
Definition json_load (text : pystr) : M json :=
  match loads text with
  | Parsed book_data _ => mret book_data
  | Malformed => raise JSONDecodeError
  | OutOfFuel => raise Unmodelled
  end.

(** [for book in book_data]: a list yields its elements, a dict its keys, a
    string its characters; the other values are not iterable. *)
Definition iterate (book_data : json) : outcome (list json) :=
  match book_data with
  | JList items => Val items
  | JDict items => Val (map (λ kv, JStr kv.1) items)
  | JStr s => Val (map (λ c, JStr [c]) s)
  | _ => Exc TypeError
  end.

(** [Books( **book)]: [book] must be a mapping whose keys are exactly the five
    parameters of [Books.__init__]. *)
Definition Books_kwargs (book : json) : outcome Books :=
  match book with
  | JDict d =>
      match dict_get key_id d, dict_get key_title d, dict_get key_author d,
            dict_get key_year d, dict_get key_status d with
      | Some i, Some t, Some a, Some y, Some s =>
          if bool_decide (length d = 5%nat) then
            match i, t, a, y, s with
            | JStr i, JStr t, JStr a, JStr y, JStr s => Val (mkBooks i t a y s)
            | _, _, _, _, _ => Exc Unmodelled
            end
          else Exc TypeError
      | _, _, _, _, _ => Exc TypeError
      end
  | _ => Exc TypeError
  end.

(** [[Books( **book) for book in book_data]], element by element. *)
Fixpoint build_books (items : list json) : M (list loc) :=
  match items with
  | [] => mret []
  | book :: rest =>
      b ← lift (Books_kwargs book);
      l ← alloc b;
      ls ← build_books rest;
      mret (l :: ls)
  end.

Definition load_book_library : M (list loc) :=
  try_except
    (text ← read_file;
     book_data ← json_load text;
     items ← lift (iterate book_data);
     build_books items)
    (λ e, match e with
          | FileNotFoundError => mret []
          | JSONDecodeError => print msg_load_error ;; mret []
          | _ => raise e
          end).

(** [Books_Library.__init__]. *)
Definition Books_Library_init : M unit :=
  l ← load_book_library;
  set_books l.

Definition add_book (book : loc) : M unit :=
  st ← get;
  set_books (books st ++ [book]) ;;
  save_book_database ;;
  print msg_added.

(** [list.remove]: drops the first element equal to [x], here the first
    occurrence of the same object, and raises [ValueError] when there is
    none. *)
Fixpoint list_remove (x : loc) (l : list loc) : option (list loc) :=
  match l with
  | [] => None
  | y :: l' => if bool_decide (x = y) then Some l' else cons y <$> list_remove x l'
  end.

Definition has_id (st : state) (i : pystr) (book : loc) : bool :=
  bool_decide (id (heap st book) = i).

Definition delete_book (id_delete : pystr) : M pystr :=
  st ← get;
  match find (has_id st id_delete) (books st) with
  | None => mret (msg_delete_not_found id_delete)
  | Some book_to_delete =>
      match list_remove book_to_delete (books st) with
      | Some l => set_books l
      | None => raise ValueError
      end ;;
      save_book_database ;;
      mret msg_deleted
  end.

(** [any(crit.lower() in value.lower() for value in vars(book).values())] *)
Definition matches (lower : pystr → pystr) (crit : pystr) (book : Books) : bool :=
  existsb (λ value, str_contains (lower crit) (lower value)) (vars_values book).

Definition search_book (lower : pystr → pystr) (criterion : list pystr) : M (gset loc) :=
  st ← get;
  mret (fold_left
          (λ (results : gset loc) crit,
             let result := List.filter (λ book, matches lower crit (heap st book)) (books st) in
             results ∪ list_to_set result)
          criterion ∅).

Definition show_all_books : M (list loc) :=
  st ← get;
  mret (books st).

(** The [for] loop of [change_status].  [result] is the local variable of the
    same name: [None] while nothing has been assigned to it. *)
Fixpoint change_status_loop (rest : list loc) (i new_status : pystr)
    (result : option pystr) : M (option pystr) :=
  match rest with
  | [] => mret result
  | book :: rest' =>
      st ← get;
      if bool_decide (id (heap st book) = i) then
        (if bool_decide (new_status = token_1)
         then set_status book status_available
         else set_status book status_checked_out) ;;
        save_book_database ;;
        mret (Some msg_status_changed)
      else change_status_loop rest' i new_status (Some msg_not_found)
  end.

Definition change_status (i new_status : pystr) : M pystr :=
  st ← get;
  result ← change_status_loop (books st) i new_status None;
  match result with
  | Some r => mret r
  | None => raise UnboundLocalError
  end.

(** ** [Books.__str__] *)

Definition label_id : pystr := Eval cbv in literal "Идентификатор книги: ".
Definition label_title : pystr := Eval cbv in literal "Название книги: ".
Definition label_author : pystr := Eval cbv in literal "Автор книги: ".
Definition label_year : pystr := Eval cbv in literal "Год издания: ".
Definition label_status : pystr := Eval cbv in literal "Статус книги: ".

(** The f-string of [__str__]: five labelled fields, a newline between two
    of them. *)
Definition Books_str (book : Books) : pystr :=
  label_id ++ id book ++ [ch_newline]
  ++ label_title ++ title book ++ [ch_newline]
  ++ label_author ++ author book ++ [ch_newline]
  ++ label_year ++ year book ++ [ch_newline]
  ++ label_status ++ status book.

(** ** The branches of [main]

    [main] reads its input with [input()] and takes the identifier of a new
    record from [uuid.uuid4()]; both are outside the development.  What
    follows is what the branches do with the strings once read: the split of
    the search line, and the bodies of the choices 2, 4 and 5.  The prompts
    that [input()] writes are not recorded in [stdout]. *)

(** [criterion.split(", ")]: the pieces between the occurrences of a comma
    followed by a space, found from left to right. *)
Definition cons_head (c : char) (pieces : list pystr) : list pystr :=
  match pieces with
  | [] => [[c]]
  | p :: ps => (c :: p) :: ps
  end.

Fixpoint split_comma_space (s : pystr) : list pystr :=
  match s with
  | [] => [[]]
  | c :: s' =>
      if (c =? ch_comma)%N then
        match s' with
        | d :: s'' =>
            if (d =? ch_space)%N then [] :: split_comma_space s''
            else cons_head c (split_comma_space s')
        | [] => cons_head c (split_comma_space s')
        end
      else cons_head c (split_comma_space s')
  end.

(** [", ".join(pieces)]. *)
Definition join_comma_space (pieces : list pystr) : pystr :=
  join_chunks [ch_comma; ch_space] pieces.

(** [print(a, b)]: the two texts with a space between them. *)
Definition print2 (a b : pystr) : M unit := print (a ++ [ch_space] ++ b).

(** Choice 2, after [id_delete] was read. *)
Definition menu_delete (id_delete : pystr) : M unit :=
  result ← delete_book id_delete;
  print result.

Definition msg_library_empty : pystr :=
  Eval cbv in literal "Библиотека пуста" ++ [ch_newline].

(** [for book in results: print(book, '\n')] *)
Fixpoint print_books (results : list loc) : M unit :=
  match results with
  | [] => mret ()
  | book :: rest =>
      st ← get;
      print2 (Books_str (heap st book)) [ch_newline] ;;
      print_books rest
  end.

(** Choice 4. *)
Definition menu_show_all : M unit :=
  results ← show_all_books;
  match results with
  | _ :: _ => print_books results
  | [] => print msg_library_empty
  end.

Definition msg_bad_status : pystr :=
  Eval cbv in literal "Некорректный выбор. Выберите из существующих состояний" ++ [ch_newline].

Definition token_2 : pystr := Eval cbv in literal "2".

(** Choice 5, after [id] and [new_status] were read. *)
Definition menu_change_status (i new_status : pystr) : M unit :=
  if bool_decide (new_status = token_1) || bool_decide (new_status = token_2) then
    result ← change_status i new_status;
    print2 result [ch_newline]
  else print msg_bad_status.



(** ** Vocabulary of the specification *)

(** [needle] is a substring of [hay]. *)
Definition substring (needle hay : pystr) : Prop :=
  ∃ pre post, hay = pre ++ needle ++ post.

(** [v] is the value of one of the five fields of [book]. *)
Definition field_value (book : Books) (v : pystr) : Prop :=
  v = id book ∨ v = title book ∨ v = author book ∨ v = year book ∨ v = status book.

(** Some record of the collection has identifier [i]. *)
Definition present (st : state) (i : pystr) : Prop :=
  ∃ book, book ∈ books st ∧ id (heap st book) = i.

(** The collection is [pre ++ book :: post] and [book] is its first record
    with identifier [i]. *)
Definition first_match (st : state) (i : pystr) (pre : list loc) (book : loc)
    (post : list loc) : Prop :=
  books st = pre ++ book :: post ∧
  Forall (λ l, id (heap st l) ≠ i) pre ∧
  id (heap st book) = i.

(** No two records of the collection share an identifier. *)
Definition unique_ids (st : state) : Prop :=
  NoDup (map (λ book, id (heap st book)) (books st)).


(** The status text that the control token of [change_status] selects. *)
Definition selected_status (new_status : pystr) : pystr :=
  if bool_decide (new_status = token_1) then status_available else status_checked_out.

(** [book] with its status replaced. *)
Definition with_status (book : Books) (s : pystr) : Books :=
  mkBooks (id book) (title book) (author book) (year book) s.

(** The state after the status of the object [book] was set to [s] and the
    collection was saved. *)
Definition updated (st : state) (book : loc) (s : pystr) : state :=
  let h := <[book := with_status (heap st book) s]> (heap st) in
  mkState h (next_loc st) (books st)
    (Some (dump (map (λ l, book_dict (h l)) (books st)))) (stdout st).

(** [str.lower] on the letters A to Z, to run [search_book] on examples. *)
Definition ascii_lower (s : pystr) : pystr :=
  map (λ c, if (65 <=? c)%N && (c <=? 90)%N then (c + 32)%N else c) s.

(** The value that [json.load] gives back for a dict of strings and for the
    dict of a record. *)
Definition str_pair (kv : pystr * pystr) : pystr * json := (kv.1, JStr kv.2).

Definition dict_json (d : list (pystr * pystr)) : json :=
  JDict (dict_of_pairs (map str_pair d)).






(** What [print(book, '\n')] writes for the object [book]. *)
Definition rendering (st : state) (book : loc) : pystr :=
  Books_str (heap st book) ++ [ch_space; ch_newline].

(** The four fields that [__str__] puts before a newline contain none. *)
Definition single_line_fields (book : Books) : Prop :=
  (ch_newline ∉ id book) ∧ (ch_newline ∉ title book) ∧
  (ch_newline ∉ author book) ∧ (ch_newline ∉ year book).

(** ** Example stores *)

(** The status that the menu gives a new record. *)
Definition status_new : pystr := Eval cbv in literal "в наличии".

Definition example_dune : Books :=
  mkBooks (literal "a") (literal "Dune") (literal "Herbert") (literal "1965") status_new.

Definition example_1984 : Books :=
  mkBooks (literal "b") (literal "1984") (literal "Orwell") (literal "1949") status_new.

Definition example_heap : loc → Books :=
  λ l, match l with O => example_dune | _ => example_1984 end.

(** A store that holds both records, and one that holds none. *)
Definition example_store : state := mkState example_heap 2 [0; 1]%nat None [].
Definition empty_store : state := mkState example_heap 2 [] None [].

(** A file with one record that has a single field, [{ "id": "1" }] in a
    list: well-formed JSON. *)
Definition short_record_text : pystr :=
  [ch_lbracket; ch_lbrace; ch_quote] ++ literal "id" ++ [ch_quote; ch_colon; ch_space;
   ch_quote] ++ literal "1" ++ [ch_quote; ch_rbrace; ch_rbracket].


(* ===================================================================== *)
(** * Part II: theorems *)
(* ===================================================================== *)

(** ** Running monadic code *)

Ltac run :=
  repeat (unfold mbind, M_bind, mret, M_ret, get, set_books, set_status, print,
            write_file, read_file, raise, lift, try_except, save_book_database;
          simpl).

Lemma state_eta (st : state) :
  mkState (heap st) (next_loc st) (books st) (file st) (stdout st) = st.
Proof. by destruct st. Qed.

(** ** Identifier lookup *)

Lemma find_has_id_none (st : state) (i : pystr) (l : list loc) :
  find (has_id st i) l = None ↔ Forall (λ book, id (heap st book) ≠ i) l.
Proof.
  induction l as [|b l IH]; simpl.
  - split; [constructor | done].
  - unfold has_id at 1. case_bool_decide as Hb.
    + split; [done | intros H; inversion H; done].
    + rewrite IH. split; [by constructor | by inversion 1].
Qed.

Lemma find_has_id_some (st : state) (i : pystr) (l : list loc) (book : loc) :
  find (has_id st i) l = Some book ↔
  ∃ pre post, l = pre ++ book :: post ∧
    Forall (λ b, id (heap st b) ≠ i) pre ∧ id (heap st book) = i.
Proof.
  revert book. induction l as [|b l IH]; intros book; simpl.
  - split; [done | intros (pre & post & H & _); by destruct pre].
  - unfold has_id at 1. case_bool_decide as Hb.
    + split.
      * intros [= <-]. by exists [], l.
      * intros (pre & post & H & Hpre & Hid). destruct pre as [|p pre]; simpl in H.
        -- by injection H as -> ->.
        -- injection H as -> ->. by inversion Hpre.
    + rewrite IH. split.
      * intros (pre & post & -> & Hpre & Hid). exists (b :: pre), post.
        split; [done | split; [by constructor | done]].
      * intros (pre & post & H & Hpre & Hid). destruct pre as [|p pre]; simpl in H.
        -- injection H as -> ->. done.
        -- injection H as -> ->. exists pre, post. by inversion Hpre.
Qed.

Lemma present_find (st : state) (i : pystr) :
  present st i ↔ ∃ book, find (has_id st i) (books st) = Some book.
Proof.
  split.
  - intros (b & Hin & Hid). destruct (find _ _) as [book|] eqn:Hf; [by exists book|].
    apply find_has_id_none in Hf. rewrite Forall_forall in Hf. by destruct (Hf b Hin).
  - intros (book & Hf). apply find_has_id_some in Hf as (pre & post & Hl & _ & Hid).
    exists book. split; [|done]. rewrite Hl. set_solver.
Qed.

Lemma not_present_find (st : state) (i : pystr) :
  ¬ present st i ↔ find (has_id st i) (books st) = None.
Proof.
  rewrite present_find. destruct (find _ _); split; try done.
  - intros H. destruct H. by eexists.
  - by intros _ [? ?].
Qed.

Lemma present_first_match (st : state) (i : pystr) :
  present st i ↔ ∃ pre book post, first_match st i pre book post.
Proof.
  rewrite present_find. split.
  - intros (book & Hf). apply find_has_id_some in Hf as (pre & post & H).
    by exists pre, book, post.
  - intros (pre & book & post & H). exists book. apply find_has_id_some.
    by exists pre, post.
Qed.

(** ** [change_status] *)

Section ChangeStatus.

Variables (i new_status : pystr).

Lemma change_status_loop_no_match (st : state) (l : list loc) (result : option pystr) :
  Forall (λ book, id (heap st book) ≠ i) l →
  change_status_loop l i new_status result st =
    (Val (match l with [] => result | _ :: _ => Some msg_not_found end), st).
Proof.
  revert result. induction l as [|b l IH]; intros result Hl; [done|].
  inversion Hl as [|? ? Hb Hl']; subst. simpl. run.
  rewrite bool_decide_eq_false_2 by done.
  rewrite IH by done. by destruct l.
Qed.

Lemma change_status_loop_match (st : state) (pre post : list loc) (book : loc)
    (result : option pystr) :
  Forall (λ b, id (heap st b) ≠ i) pre →
  id (heap st book) = i →
  change_status_loop (pre ++ book :: post) i new_status result st =
    (Val (Some msg_status_changed), updated st book (selected_status new_status)).
Proof.
  intros Hpre Hid. revert result.
  induction Hpre as [|b pre Hb Hpre IH]; intros result; simpl; run.
  - rewrite bool_decide_eq_true_2 by done. unfold updated, selected_status, with_status.
    by case_bool_decide.
  - rewrite bool_decide_eq_false_2 by done. apply IH.
Qed.

Lemma change_status_found (st : state) (pre post : list loc) (book : loc) :
  first_match st i pre book post →
  change_status i new_status st =
    (Val msg_status_changed, updated st book (selected_status new_status)).
Proof.
  intros (Hbooks & Hpre & Hid). unfold change_status. run.
  rewrite Hbooks at 1. by rewrite change_status_loop_match.
Qed.

Lemma change_status_absent (st : state) :
  ¬ present st i →
  change_status i new_status st =
    (match books st with [] => Exc UnboundLocalError | _ :: _ => Val msg_not_found end, st).
Proof.
  intros H%not_present_find%find_has_id_none. unfold change_status. run.
  rewrite change_status_loop_no_match by done. by destruct (books st).
Qed.

End ChangeStatus.

(** C8: on a store whose collection is empty, [change_status] returns no
    message for any identifier and token: the loop body never runs, the local
    variable [result] is never assigned, and the call fails with
    [UnboundLocalError]. *)
Theorem change_status_empty_collection (st : state) (i new_status : pystr) :
  books st = [] →
  change_status i new_status st = (Exc UnboundLocalError, st).
Proof.
  intros Hempty. unfold change_status. run. by rewrite Hempty.
Qed.

Lemma change_status_empty_collection_witness :
  books empty_store = [] ∧
  change_status (literal "a") token_1 empty_store = (Exc UnboundLocalError, empty_store).
Proof.
  split; [reflexivity | apply change_status_empty_collection; reflexivity].
Defined.

(** C1, at the input where the code departs from it: no record of the empty
    store has identifier "a", yet [change_status("a", "1")] does not return
    the not-found message; it raises [UnboundLocalError]. *)
Theorem change_status_empty_store_raises :
  ¬ present empty_store (literal "a") ∧
  change_status (literal "a") token_1 empty_store = (Exc UnboundLocalError, empty_store) ∧
  change_status (literal "a") token_1 empty_store ≠ (Val msg_not_found, empty_store).
Proof.
  split; [|split].
  - intros (book & Hin & _). by apply elem_of_nil in Hin.
  - reflexivity.
  - discriminate.
Qed.

(** The rest of C1 holds: on a collection that is not empty, not-found is
    the answer exactly when no record has the identifier, however far into
    the collection the scan has to go. *)
Lemma change_status_not_found_iff (st : state) (i new_status : pystr) :
  books st ≠ [] →
  (change_status i new_status st).1 = Val msg_not_found ↔ ¬ present st i.
Proof.
  intros Hne. split.
  - intros Hres Hp. apply present_first_match in Hp as (pre & book & post & Hfm).
    by rewrite (change_status_found _ _ _ _ _ _ Hfm) in Hres.
  - intros Hp. rewrite change_status_absent by done. by destruct (books st).
Qed.



(** ** [delete_book] *)

Lemma list_remove_first_match (st : state) (i : pystr) (pre post : list loc) (book : loc) :
  Forall (λ l, id (heap st l) ≠ i) pre →
  id (heap st book) = i →
  list_remove book (pre ++ book :: post) = Some (pre ++ post).
Proof.
  intros Hpre Hid. induction Hpre as [|b pre Hb Hpre IH]; simpl.
  - by rewrite bool_decide_eq_true_2.
  - rewrite bool_decide_eq_false_2; [by rewrite IH | congruence].
Qed.

Lemma delete_book_found (st : state) (i : pystr) (pre post : list loc) (book : loc) :
  first_match st i pre book post →
  delete_book i st =
    (Val msg_deleted,
     mkState (heap st) (next_loc st) (pre ++ post)
       (Some (dump (map (λ l, book_dict (heap st l)) (pre ++ post)))) (stdout st)).
Proof.
  intros Hfm. assert (Hf : find (has_id st i) (books st) = Some book).
  { apply find_has_id_some. destruct Hfm as (? & ? & ?). by exists pre, post. }
  destruct Hfm as (Hbooks & Hpre & Hid).
  unfold delete_book. run. rewrite Hf. run.
  rewrite Hbooks, (list_remove_first_match st i) by done. by run.
Qed.





(** ** [add_book] and [show_all_books] *)


(** ** Substrings *)

Lemma startswith_spec (p s : pystr) :
  startswith p s = true ↔ ∃ post, s = p ++ post.
Proof.
  revert s. induction p as [|a p IH]; intros s; simpl.
  - split; [by exists s | done].
  - destruct s as [|b s].
    + split; [done | by intros [? ?]].
    + rewrite andb_true_iff, N.eqb_eq, IH. split.
      * intros [-> [post ->]]. by exists post.
      * intros [post [= -> ->]]. split; [done | by exists post].
Qed.

Lemma str_contains_spec (needle hay : pystr) :
  str_contains needle hay = true ↔ substring needle hay.
Proof.
  unfold substring. induction hay as [|c hay IH]; simpl.
  - rewrite orb_false_r, startswith_spec. split.
    + intros [post H]. by exists [], post.
    + intros (pre & post & H). destruct pre; [by exists post|done].
  - rewrite orb_true_iff, IH. split.
    + intros [H|(pre & post & ->)].
      * apply startswith_spec in H as [post H]. by exists [], post.
      * by exists (c :: pre), post.
    + intros (pre & post & H). destruct pre as [|c' pre]; simpl in H.
      * left. apply startswith_spec. by exists post.
      * injection H as -> ->. right. by exists pre, post.
Qed.

Lemma str_contains_nil (hay : pystr) : str_contains [] hay = true.
Proof. by destruct hay. Qed.

(** ** [search_book] *)

Section Search.

Variable lower : pystr → pystr.

Lemma matches_spec (crit : pystr) (book : Books) :
  matches lower crit book = true ↔
  ∃ v, field_value book v ∧ substring (lower crit) (lower v).
Proof.
  unfold matches, vars_values, field_value. simpl.
  rewrite orb_false_r, !orb_true_iff, !str_contains_spec. split.
  - intros [H|[H|[H|[H|H]]]]; eexists; (split; [|exact H]); tauto.
  - intros (v & [->|[->|[->|[->| ->]]]] & H); tauto.
Qed.

Lemma elem_of_search_fold (st : state) (criterion : list pystr) (acc : gset loc)
    (book : loc) :
  book ∈ fold_left
           (λ (results : gset loc) crit,
              results ∪ list_to_set
                (List.filter (λ b, matches lower crit (heap st b)) (books st)))
           criterion acc ↔
  book ∈ acc ∨
  (book ∈ books st ∧ ∃ crit, crit ∈ criterion ∧ matches lower crit (heap st book) = true).
Proof.
  revert acc. induction criterion as [|c criterion IH]; intros acc; simpl.
  - split; [by left | intros [H|(_ & c & Hc & _)]; [done | by apply elem_of_nil in Hc]].
  - rewrite IH, elem_of_union, elem_of_list_to_set, list_elem_of_In, filter_In,
      <- list_elem_of_In.
    split.
    + intros [[H|[Hin Hm]]|(Hin & c' & Hc' & Hm)].
      * by left.
      * right. split; [done|]. exists c. split; [left | done].
      * right. split; [done|]. exists c'. split; [by right | done].
    + intros [H|(Hin & c' & Hc' & Hm)]; [by left; left|].
      apply elem_of_cons in Hc' as [->|Hc'].
      * left. by right.
      * right. split; [done|]. by exists c'.
Qed.

(** C4: a record is in the result of [search_book] exactly when it is in the
    collection and, for at least one criterion, the lower-cased criterion is
    a substring of the lower-cased value of at least one of the record's five
    fields.  The result is a set of objects: a record that several criteria
    select is in it once, and one criterion is enough. *)
Theorem search_book_spec (st : state) (criterion : list pystr) :
  ∃ results : gset loc,
    search_book lower criterion st = (Val results, st) ∧
    ∀ book : loc,
      book ∈ results ↔
      book ∈ books st ∧
      ∃ crit, crit ∈ criterion ∧
      ∃ v, field_value (heap st book) v ∧ substring (lower crit) (lower v).
Proof.
  eexists. split; [reflexivity|]. intros book.
  rewrite elem_of_search_fold. setoid_rewrite matches_spec.
  split; [intros [H|H]; [set_solver | done] | by right].
Qed.

(** C9: when the criteria contain the empty string, [search_book] returns
    the set of all records of the collection (the lower-cased empty string
    being empty, it is a substring of every field value); on an empty list of
    criteria it returns the empty set. *)
Theorem search_book_empty_criteria (st : state) (criterion : list pystr) :
  (lower [] = [] → [] ∈ criterion →
   search_book lower criterion st = (Val (list_to_set (books st)), st)) ∧
  search_book lower [] st = (Val ∅, st).
Proof.
  split; [|reflexivity]. intros Hlower Hin.
  unfold search_book. run. do 2 f_equal. apply set_eq. intros book.
  rewrite elem_of_search_fold, elem_of_list_to_set. split.
  - intros [H|[H _]]; [set_solver | done].
  - intros H. right. split; [done|]. exists []. split; [done|].
    unfold matches, vars_values. simpl. by rewrite Hlower, str_contains_nil.
Qed.

(** C10: [search_book] and [show_all_books] return a value and leave the
    state as it was: the objects, the collection and its order, the backing
    file. *)
Theorem queries_are_pure (st : state) (criterion : list pystr) :
  (∃ results, search_book lower criterion st = (Val results, st)) ∧
  show_all_books st = (Val (books st), st).
Proof. split; [by eexists | reflexivity]. Qed.

End Search.

Lemma search_book_empty_criteria_witness :
  ascii_lower [] = [] ∧ [] ∈ [literal "d"; literal ""] ∧
  search_book ascii_lower [literal "d"; literal ""] example_store =
    (Val (list_to_set (books example_store)), example_store).
Proof.
  split; [reflexivity|]. split; [set_solver|].
  apply (proj1 (search_book_empty_criteria ascii_lower example_store [literal "d"; literal ""]));
    [reflexivity | set_solver].
Defined.

(** ** The UTF-8 codec is exact on Unicode text *)

Module Utf8Facts.

Local Open Scope N_scope.

#[local] Ltac Zify.zify_post_hook ::= Z.to_euclidean_division_equations.





End Utf8Facts.

(** ** The JSON codec: what was written is read back *)

Module JsonFacts.

Local Open Scope N_scope.


Lemma hex4_hexdigit (c : char) :
  c < 32 → hex4 ch_0 ch_0 (hexdigit (c / 16)) (hexdigit (c mod 16)) = Some c.
Proof.
  intros Hc.
  assert (H : ∀ n : nat, (n < 32)%nat →
     hex4 ch_0 ch_0 (hexdigit (N.of_nat n / 16)) (hexdigit (N.of_nat n mod 16)) = Some (N.of_nat n)).
  { intros n Hn. do 32 (destruct n as [|n]; [reflexivity|]). lia. }
  specialize (H (N.to_nat c)). rewrite N2Nat.id in H. apply H. lia.
Qed.

Lemma scanstring_escape_char (c : char) (X : pystr) :
  scanstring (escape_char c ++ X) = parsed_cons c (scanstring X).
Proof.
  unfold escape_char.
  destruct (N.eqb_spec c ch_backslash) as [->|H92]; [reflexivity|].
  destruct (N.eqb_spec c ch_quote) as [->|H34]; [reflexivity|].
  destruct (N.eqb_spec c 8) as [->|H8]; [reflexivity|].
  destruct (N.eqb_spec c 12) as [->|H12]; [reflexivity|].
  destruct (N.eqb_spec c 10) as [->|H10]; [reflexivity|].
  destruct (N.eqb_spec c 13) as [->|H13]; [reflexivity|].
  destruct (N.eqb_spec c 9) as [->|H9]; [reflexivity|].
  destruct (N.ltb_spec c 32) as [Hlt|Hge].
  - simpl. rewrite hex4_hexdigit by done.
    assert (Hs : is_high_surrogate c = false).
    { unfold is_high_surrogate. apply andb_false_iff. left. apply N.leb_gt. lia. }
    rewrite Hs. reflexivity.
  - simpl. 
    rewrite (proj2 (N.eqb_neq c ch_quote)), (proj2 (N.eqb_neq c ch_backslash)) by done.
    rewrite (proj2 (N.ltb_ge c 32)) by done. reflexivity.
Qed.

Lemma scanstring_encoded (s rest : pystr) :
  scanstring (flat_map escape_char s ++ ch_quote :: rest) = Parsed s rest.
Proof.
  induction s as [|c s IH]; [reflexivity|].
  simpl. rewrite <- app_assoc, scanstring_escape_char, IH. reflexivity.
Qed.

Lemma encode_basestring_app (s rest : pystr) :
  encode_basestring s ++ rest = ch_quote :: flat_map escape_char s ++ ch_quote :: rest.
Proof. unfold encode_basestring. simpl. by rewrite <- app_assoc. Qed.

Lemma scan_once_string (fuel : nat) (s rest : pystr) :
  scan_once (S fuel) (encode_basestring s ++ rest) = Parsed (JStr s) rest.
Proof. rewrite encode_basestring_app. simpl. by rewrite scanstring_encoded. Qed.

Lemma skip_ws_spaces (n : nat) (X : pystr) :
  skip_ws (repeat ch_space n ++ X) = skip_ws X.
Proof. induction n as [|n IH]; [done | apply IH]. Qed.

Lemma skip_ws_newline_indent (level : nat) (X : pystr) :
  skip_ws (newline_indent level ++ X) = skip_ws X.
Proof. unfold newline_indent. simpl. apply skip_ws_spaces. Qed.

Lemma skip_ws_stop (c : char) (X : pystr) :
  is_ws c = false → skip_ws (c :: X) = c :: X.
Proof. intros H. simpl. by rewrite H. Qed.


Lemma encode_item_app (k v : pystr) (Z : pystr) :
  encode_item (k, v) ++ Z =
    ch_quote :: flat_map escape_char k ++ ch_quote :: ch_colon :: ch_space :: encode_basestring v ++ Z.
Proof.
  unfold encode_item. simpl fst. simpl snd.
  rewrite <- !app_assoc, encode_basestring_app. reflexivity.
Qed.

Lemma join_chunks_cons (sep c : pystr) (cs : list pystr) (Z : pystr) :
  join_chunks sep (c :: cs) ++ Z =
    c ++ match cs with [] => Z | _ :: _ => sep ++ join_chunks sep cs ++ Z end.
Proof. destruct cs; simpl; [done|]. by rewrite <- !app_assoc. Qed.

Lemma object_members_step (fuel : nat) (k v : pystr) (Z : pystr) :
  object_members (S (S fuel))
    (flat_map escape_char k ++ ch_quote :: ch_colon :: ch_space :: encode_basestring v ++ Z) =
  match skip_ws Z with
  | [] => Malformed
  | c2 :: r3 =>
      if c2 =? ch_rbrace then Parsed [(k, JStr v)] r3
      else if c2 =? ch_comma then
        match skip_ws r3 with
        | [] => Malformed
        | c3 :: r4 =>
            if c3 =? ch_quote then
              match object_members (S fuel) r4 with
              | Parsed ps r' => Parsed ((k, JStr v) :: ps) r'
              | Malformed => Malformed
              | OutOfFuel => OutOfFuel
              end
            else Malformed
        end
      else Malformed
  end.
Proof.
  cbn [object_members]. rewrite scanstring_encoded.
  rewrite skip_ws_stop by done. change (ch_colon =? ch_colon) with true. cbv iota.
  change (skip_ws (ch_space :: encode_basestring v ++ Z)) with (skip_ws (encode_basestring v ++ Z)).
  rewrite encode_basestring_app, skip_ws_stop by done.
  rewrite <- encode_basestring_app, scan_once_string. reflexivity.
Qed.

Lemma object_members_encoded (level : nat) (items : list (pystr * pystr))
    (kv : pystr * pystr) (fuel : nat) (rest : pystr) :
  (length items + 2 ≤ fuel)%nat →
  object_members fuel
    (tl (join_chunks (ch_comma :: newline_indent (S level)) (map encode_item (kv :: items))
         ++ newline_indent level ++ ch_rbrace :: rest)) =
  Parsed (map str_pair (kv :: items)) rest.
Proof.
  revert kv fuel. induction items as [|kv' items IH]; intros [k v] fuel Hfuel;
    (destruct fuel as [|[|fuel]]; [simpl in Hfuel; lia..|]);
    rewrite map_cons, join_chunks_cons, encode_item_app; cbn [tl];
    rewrite object_members_step.
  - simpl map. cbv iota. rewrite skip_ws_newline_indent, skip_ws_stop by done.
    reflexivity.
  - rewrite map_cons. cbv iota. rewrite <- app_comm_cons, skip_ws_stop by done.
    change (ch_comma =? ch_rbrace) with false. change (ch_comma =? ch_comma) with true. cbv iota.
    rewrite skip_ws_newline_indent.
    specialize (IH kv' (S fuel)). destruct kv' as [k' v'].
    rewrite map_cons, join_chunks_cons, encode_item_app in IH.
    rewrite map_cons, join_chunks_cons, encode_item_app.
    rewrite skip_ws_stop by done. change (ch_quote =? ch_quote) with true. cbv iota.
    cbn [tl] in IH. rewrite IH; [reflexivity | simpl in *; lia].
Qed.

Lemma scan_once_dict (level : nat) (d : list (pystr * pystr)) (fuel : nat) (Z : pystr) :
  (length d + 2 ≤ fuel)%nat →
  scan_once fuel (iterencode_dict d level ++ Z) =
    Parsed (JDict (dict_of_pairs (map str_pair d))) Z.
Proof.
  intros Hfuel. destruct fuel as [|fuel]; [lia|].
  destruct d as [|kv d]; [reflexivity|].
  unfold iterencode_dict. rewrite <- !app_assoc.
  change ([ch_lbrace] ++ ?X) with (ch_lbrace :: X).
  change ([ch_rbrace] ++ Z) with (ch_rbrace :: Z).
  cbn [scan_once]. change (ch_lbrace =? ch_quote) with false. change (ch_lbrace =? ch_lbrace) with true.
  cbv iota. rewrite skip_ws_newline_indent.
  pose proof (object_members_encoded level d kv fuel Z) as Hm.
  destruct kv as [k v]. rewrite map_cons, join_chunks_cons, encode_item_app in Hm.
  rewrite map_cons, join_chunks_cons, encode_item_app.
  rewrite skip_ws_stop by done. change (ch_quote =? ch_rbrace) with false.
  change (ch_quote =? ch_quote) with true. cbv iota.
  cbn [tl] in Hm. rewrite Hm; [done | simpl in *; lia].
Qed.

Lemma iterencode_dict_head (d : list (pystr * pystr)) (level : nat) (Z : pystr) :
  ∃ X, iterencode_dict d level ++ Z = ch_lbrace :: X.
Proof. destruct d; by eexists. Qed.

Lemma skip_ws_dict (d : list (pystr * pystr)) (level : nat) (Z : pystr) :
  skip_ws (iterencode_dict d level ++ Z) = iterencode_dict d level ++ Z.
Proof. destruct (iterencode_dict_head d level Z) as [X ->]. done. Qed.

Lemma array_items_encoded (level n : nat) (lst : list (list (pystr * pystr)))
    (d : list (pystr * pystr)) (fuel : nat) (rest : pystr) :
  Forall (λ d, length d ≤ n)%nat (d :: lst) →
  (length lst + n + 3 ≤ fuel)%nat →
  array_items fuel
    (join_chunks (ch_comma :: newline_indent (S level))
       (map (λ d, iterencode_dict d (S level)) (d :: lst))
     ++ newline_indent level ++ ch_rbracket :: rest) =
  Parsed (map dict_json (d :: lst)) rest.
Proof.
  revert d fuel. induction lst as [|d' lst IH]; intros d fuel Hn Hfuel;
    (destruct fuel as [|fuel]; [lia|]);
    apply Forall_cons in Hn as [Hd Hn];
    rewrite map_cons, join_chunks_cons; cbn [array_items];
    (rewrite scan_once_dict by (simpl in *; lia)).
  - simpl map. cbv iota. rewrite skip_ws_newline_indent, skip_ws_stop by done.
    reflexivity.
  - specialize (IH d' fuel Hn). rewrite map_cons, join_chunks_cons in IH.
    rewrite map_cons. cbv iota. rewrite <- app_comm_cons, skip_ws_stop by done.
    change (ch_comma =? ch_rbracket) with false. change (ch_comma =? ch_comma) with true. cbv iota.
    rewrite skip_ws_newline_indent, join_chunks_cons. cbv beta in IH |- *.
    rewrite skip_ws_dict, IH; [reflexivity | simpl in *; lia].
Qed.

Lemma scan_once_list (level n : nat) (lst : list (list (pystr * pystr)))
    (fuel : nat) (rest : pystr) :
  Forall (λ d, length d ≤ n)%nat lst →
  (length lst + n + 3 ≤ fuel)%nat →
  scan_once fuel (iterencode_list lst level ++ rest) =
    Parsed (JList (map dict_json lst)) rest.
Proof.
  intros Hn Hfuel. destruct fuel as [|fuel]; [lia|].
  destruct lst as [|d lst]; [reflexivity|].
  unfold iterencode_list. rewrite <- !app_assoc.
  change ([ch_lbracket] ++ ?X) with (ch_lbracket :: X).
  change ([ch_rbracket] ++ rest) with (ch_rbracket :: rest).
  cbn [scan_once]. change (ch_lbracket =? ch_quote) with false. change (ch_lbracket =? ch_lbrace) with false.
  change (ch_lbracket =? ch_lbracket) with true. cbv iota. rewrite skip_ws_newline_indent.
  pose proof (array_items_encoded level n lst d fuel rest Hn) as Ha.
  rewrite map_cons, join_chunks_cons in Ha |- *. cbv beta in Ha |- *.
  rewrite skip_ws_dict.
  match goal with
  | |- context [iterencode_dict ?d ?l ++ ?Z] =>
      destruct (iterencode_dict_head d l Z) as [X HX]
  end.
  rewrite HX in Ha |- *. cbv beta iota. change (ch_lbrace =? ch_rbracket) with false. cbv iota.
  rewrite Ha; [reflexivity | simpl in *; lia].
Qed.

Lemma join_chunks_length (sep : pystr) (chunks : list pystr) :
  Forall (λ c, c ≠ []) chunks → (length chunks ≤ length (join_chunks sep chunks))%nat.
Proof.
  induction 1 as [|c cs Hc Hcs IH]; [done|].
  destruct cs as [|c' cs]; simpl in *.
  - destruct c; [done | simpl; lia].
  - rewrite !length_app. destruct c; [done | simpl in *; lia].
Qed.

Lemma iterencode_list_length (lst : list (list (pystr * pystr))) (level : nat) :
  (length lst ≤ length (iterencode_list lst level))%nat.
Proof.
  unfold iterencode_list. destruct lst as [|d lst]; [simpl; lia|].
  pose proof (join_chunks_length (ch_comma :: newline_indent (S level))
                (map (λ d, iterencode_dict d (S level)) (d :: lst))) as Hl.
  rewrite length_map in Hl. rewrite !length_app.
  etrans; [apply Hl|lia].
  apply Forall_forall. intros c (d0 & -> & _)%list_elem_of_fmap. by destruct d0.
Qed.

Lemma loads_dump (lst : list (list (pystr * pystr))) :
  Forall (λ d, length d ≤ 5)%nat lst →
  loads (dump lst) = Parsed (JList (map dict_json lst)) [].
Proof.
  intros Hn. destruct lst as [|d lst]; [reflexivity|].
  unfold loads, dump.
  assert (Hfuel : (length (d :: lst) + 5 + 3 ≤ enough_fuel (iterencode_list (d :: lst) 0))%nat).
  { unfold enough_fuel. pose proof (iterencode_list_length (d :: lst) 0) as Hl.
    unfold iterencode_list in *.
    remember (join_chunks _ _) as J. rewrite !length_app in *. simpl in *. lia. }
  pose proof (scan_once_list 0 5 (d :: lst) _ [] Hn Hfuel) as Hs.
  rewrite app_nil_r in Hs.
  destruct (iterencode_list (d :: lst) 0) as [|c r] eqn:Htext; [done|].
  assert (c = ch_lbracket) as -> by (by injection Htext).
  rewrite skip_ws_stop by done. rewrite Hs. reflexivity.
Qed.

(** ** The JSON codec: the text written is Unicode text *)










(** ** The JSON codec: the decoder has fuel for every input *)


Lemma skip_ws_length (s : pystr) : (length (skip_ws s) ≤ length s)%nat.
Proof. induction s as [|c s IH]; simpl; [lia|]. destruct (is_ws c); simpl; lia. Qed.

Lemma parsed_cons_inv (c : char) (p : parsed pystr) (v : pystr) (r : pystr) :
  parsed_cons c p = Parsed v r → ∃ v', p = Parsed v' r.
Proof. destruct p; simpl; intros; simplify_eq. by eexists. Qed.

Lemma parsed_cons_fuel (c : char) (p : parsed pystr) :
  parsed_cons c p = OutOfFuel → p = OutOfFuel.
Proof. by destruct p. Qed.

Lemma scanstring_length_aux (n : nat) (s v r : pystr) :
  (length s ≤ n)%nat → scanstring s = Parsed v r → (length r < length s)%nat.
Proof.
  revert s v r. induction n as [|n IH]; intros s v r Hn Hs.
  - destruct s; [done | simpl in Hn; lia].
  - destruct s as [|c rest]; [done|]. cbn [scanstring] in Hs. simpl in Hn.
    repeat (case_match; simplify_eq; try done);
      try (apply parsed_cons_inv in Hs as [v' Hs]; apply IH in Hs);
      simpl in *; lia.
Qed.

Lemma scanstring_length (s v r : pystr) :
  scanstring s = Parsed v r → (length r < length s)%nat.
Proof. by apply (scanstring_length_aux (length s)). Qed.

Lemma scanstring_fuel (s : pystr) : scanstring s ≠ OutOfFuel.
Proof.
  assert (H : ∀ n s, (length s ≤ n)%nat → scanstring s ≠ OutOfFuel).
  { clear s. induction n as [|n IH]; intros s Hn Hs.
    - destruct s; [done | simpl in Hn; lia].
    - destruct s as [|c rest]; [done|]. cbn [scanstring] in Hs. simpl in Hn.
      repeat (case_match; simplify_eq; try done);
        apply parsed_cons_fuel in Hs; (eapply IH; [|exact Hs]); simpl in *; lia. }
  by apply (H (length s)).
Qed.

Lemma strip_prefix_length (p s r : pystr) :
  strip_prefix p s = Some r → length s = (length p + length r)%nat.
Proof.
  revert s. induction p as [|a p IH]; intros s H; simpl in *; [by simplify_eq|].
  destruct s as [|b s]; [done|]. destruct (a =? b); [|done].
  apply IH in H. simpl. lia.
Qed.

Lemma span_digits_length (s d r : pystr) :
  span_digits s = (d, r) → length s = (length d + length r)%nat.
Proof.
  revert d r. induction s as [|c s IH]; intros d r H; simpl in *; [by simplify_eq|].
  destruct (is_digit c); [|by simplify_eq].
  destruct (span_digits s) as [d' r']. simplify_eq. rewrite (IH d' r eq_refl).
  simpl. lia.
Qed.

Lemma match_int_length (s i r : pystr) :
  match_int s = Some (i, r) → (length r < length s)%nat.
Proof.
  destruct s as [|c s]; simpl; [done|]. intros H.
  repeat (case_match; simplify_eq); simpl; try lia.
  match goal with H : span_digits _ = _ |- _ => apply span_digits_length in H end. lia.
Qed.

Lemma match_frac_length (s f r : pystr) :
  match_frac s = (f, r) → (length r ≤ length s)%nat.
Proof.
  destruct s as [|c s]; simpl; intros H; [by simplify_eq|].
  repeat (case_match; simplify_eq); simpl; try lia;
  match goal with H : span_digits _ = _ |- _ => apply span_digits_length in H end;
    simpl in *; lia.
Qed.

Lemma match_exp_length (s e r : pystr) :
  match_exp s = (e, r) → (length r ≤ length s)%nat.
Proof.
  destruct s as [|c s]; simpl; intros H; [by simplify_eq|].
  repeat (case_match; simplify_eq); simpl; try lia;
  match goal with H : span_digits _ = _ |- _ => apply span_digits_length in H end;
    simpl in *; lia.
Qed.

Lemma match_number_length (s : pystr) (v : json) (r : pystr) :
  match_number s = Some (v, r) → (length r < length s)%nat.
Proof.
  unfold match_number. intros H.
  repeat (case_match; simplify_eq);
  repeat match goal with
  | H : match_int _ = Some _ |- _ => apply match_int_length in H
  | H : match_frac _ = _ |- _ => apply match_frac_length in H
  | H : match_exp _ = _ |- _ => apply match_exp_length in H
  end; simpl in *; lia.
Qed.

Lemma scan_constant_length (s : pystr) (v : json) (r : pystr) :
  scan_constant s = Parsed v r → (length r < length s)%nat.
Proof.
  unfold scan_constant. intros H.
  repeat (case_match; simplify_eq);
  repeat match goal with
  | H : strip_prefix _ _ = Some _ |- _ => apply strip_prefix_length in H
  | H : match_number _ = Some _ |- _ => apply match_number_length in H
  end; simpl in *; lia.
Qed.

Lemma scan_constant_fuel (s : pystr) : scan_constant s ≠ OutOfFuel.
Proof. unfold scan_constant. by repeat case_match. Qed.

Ltac length_facts :=
  repeat match goal with
  | H : skip_ws ?s = _ |- _ =>
      let Hl := fresh "Hl" in
      pose proof (skip_ws_length s) as Hl; rewrite H in Hl; clear H
  | H : scanstring _ = Parsed _ _ |- _ => apply scanstring_length in H
  | H : scan_constant _ = Parsed _ _ |- _ => apply scan_constant_length in H
  end.

Lemma scan_length (fuel : nat) :
  (∀ s v r, scan_once fuel s = Parsed v r → (length r < length s)%nat) ∧
  (∀ s v r, array_items fuel s = Parsed v r → (length r < length s)%nat) ∧
  (∀ s v r, object_members fuel s = Parsed v r → (length r < length s)%nat).
Proof.
  induction fuel as [|fuel (IHs & IHa & IHo)]; [done|].
  split; [|split]; intros s v r H.
  - destruct s as [|c s]; [done|]. cbn [scan_once] in H.
    repeat (case_match; simplify_eq; try done);
    repeat match goal with
    | H : array_items fuel _ = Parsed _ _ |- _ => apply IHa in H
    | H : object_members fuel _ = Parsed _ _ |- _ => apply IHo in H
    end; length_facts; simpl in *; lia.
  - cbn [array_items] in H.
    repeat (case_match; simplify_eq; try done);
    repeat match goal with
    | H : scan_once fuel _ = Parsed _ _ |- _ => apply IHs in H
    | H : array_items fuel _ = Parsed _ _ |- _ => apply IHa in H
    end; length_facts;
    try (match goal with H : (_ < length (skip_ws ?x))%nat |- _ =>
           pose proof (skip_ws_length x) end);
    simpl in *; lia.
  - cbn [object_members] in H.
    repeat (case_match; simplify_eq; try done);
    repeat match goal with
    | H : scan_once fuel _ = Parsed _ _ |- _ => apply IHs in H
    | H : object_members fuel _ = Parsed _ _ |- _ => apply IHo in H
    end; length_facts;
    try (match goal with H : (_ < length (skip_ws ?x))%nat |- _ =>
           pose proof (skip_ws_length x) end);
    simpl in *; lia.
Qed.

Lemma scan_fuel (fuel : nat) :
  (∀ s, (2 * length s + 1 ≤ fuel)%nat → scan_once fuel s ≠ OutOfFuel) ∧
  (∀ s, (2 * length s + 2 ≤ fuel)%nat → array_items fuel s ≠ OutOfFuel) ∧
  (∀ s, (2 * length s + 2 ≤ fuel)%nat → object_members fuel s ≠ OutOfFuel).
Proof.
  induction fuel as [|fuel (IHs & IHa & IHo)]; [repeat split; intros; lia|].
  destruct (scan_length fuel) as (Ls & La & Lo).
  split; [|split]; intros s Hf H.
  - destruct s as [|c s]; [done|]. cbn [scan_once] in H.
    repeat (case_match; simplify_eq; try done);
    try (by eapply scanstring_fuel); try (by eapply scan_constant_fuel);
    match goal with
    | H : array_items fuel ?x = OutOfFuel |- _ => apply (IHa x); [|done]
    | H : object_members fuel ?x = OutOfFuel |- _ => apply (IHo x); [|done]
    end; length_facts; simpl in *; lia.
  - cbn [array_items] in H.
    repeat (case_match; simplify_eq; try done);
    repeat match goal with
    | H : scan_once fuel _ = Parsed _ _ |- _ => apply Ls in H
    end;
    match goal with
    | H : scan_once fuel ?x = OutOfFuel |- _ => apply (IHs x); [|done]
    | H : array_items fuel ?x = OutOfFuel |- _ => apply (IHa x); [|done]
    end; length_facts;
    try (match goal with |- context [length (skip_ws ?x)] =>
           pose proof (skip_ws_length x) end);
    simpl in *; lia.
  - cbn [object_members] in H.
    repeat (case_match; simplify_eq; try done);
    try (by eapply scanstring_fuel);
    repeat match goal with
    | H : scan_once fuel _ = Parsed _ _ |- _ => apply Ls in H
    end;
    match goal with
    | H : scan_once fuel ?x = OutOfFuel |- _ => apply (IHs x); [|done]
    | H : object_members fuel ?x = OutOfFuel |- _ => apply (IHo x); [|done]
    end; length_facts;
    repeat (match goal with
        | H : context [length (skip_ws ?x)] |- _ =>
           lazymatch goal with
           | _ : (length (skip_ws x) ≤ length x)%nat |- _ => fail
           | _ => pose proof (skip_ws_length x)
           end
        | |- context [length (skip_ws ?x)] =>
           lazymatch goal with
           | _ : (length (skip_ws x) ≤ length x)%nat |- _ => fail
           | _ => pose proof (skip_ws_length x)
           end
        end);
    simpl in *; lia.
Qed.

Lemma loads_fuel (s : pystr) : loads s ≠ OutOfFuel.
Proof.
  unfold loads. intros H.
  repeat (case_match; simplify_eq; try done);
  match goal with
  | H : scan_once _ (skip_ws ?x) = OutOfFuel |- _ =>
      apply (proj1 (scan_fuel _)) in H; [done|];
      pose proof (skip_ws_length x); unfold enough_fuel; simpl in *; lia
  end.
Qed.

End JsonFacts.

(** ** [load_book_library] *)

Lemma Books_kwargs_book_dict (b : Books) :
  Books_kwargs (dict_json (book_dict b)) = Val b.
Proof. by destruct b. Qed.

Lemma build_books_records (bs : list Books) (st : state) :
  ∃ st',
    build_books (map (λ b, dict_json (book_dict b)) bs) st =
      (Val (seq (next_loc st) (length bs)), st') ∧
    map (heap st') (seq (next_loc st) (length bs)) = bs ∧
    (∀ l, l < next_loc st → heap st' l = heap st l) ∧
    books st' = books st ∧ file st' = file st ∧ stdout st' = stdout st.
Proof.
  revert st. induction bs as [|b bs IH]; intros st.
  - by exists st.
  - destruct (IH (mkState (<[next_loc st := b]> (heap st)) (S (next_loc st))
                    (books st) (file st) (stdout st)))
      as (st' & Hrun & Hmap & Hold & Hb & Hf & Ho).
    cbn [next_loc heap books file stdout] in Hrun, Hmap, Hold, Hb, Hf, Ho.
    exists st'. split; [|split; [|split]].
    + cbn [map build_books length seq]. unfold mbind, M_bind, lift, alloc.
      rewrite Books_kwargs_book_dict, Hrun. reflexivity.
    + simpl. rewrite Hmap, Hold by lia. by rewrite fn_lookup_insert.
    + intros l Hl. rewrite Hold by lia. rewrite fn_lookup_insert_ne; [done | lia].
    + done.
Qed.





Lemma load_book_library_absent (st : state) :
  file st = None → load_book_library st = (Val [], st).
Proof.
  intros Hf. unfold load_book_library. run. by rewrite Hf.
Qed.

Lemma load_book_library_malformed (st : state) (text : pystr) :
  file st = Some text →
  loads text = Malformed →
  load_book_library st =
    (Val [], mkState (heap st) (next_loc st) (books st) (file st)
               (stdout st ++ [msg_load_error])).
Proof.
  intros Hf Ht. unfold load_book_library, json_load. run. rewrite Hf, Ht. run.
  by rewrite Hf.
Qed.

(** C7, at an input where the code departs from it: the content
    [[{"id": "1"}]] is well-formed JSON but no sequence of five-field records;
    [load_book_library] prints nothing and returns no collection, the
    [TypeError] of [Books( **book)] leaves it uncaught. *)
Theorem load_book_library_short_record :
  loads short_record_text = Parsed (JList [JDict [(key_id, JStr (literal "1"))]]) [] ∧
  load_book_library (mkState example_heap 2 [] (Some short_record_text) []) =
    (Exc TypeError, mkState example_heap 2 [] (Some short_record_text) []).
Proof. split; reflexivity. Qed.

Lemma json_load_outcome (text : pystr) (st : state) :
  (∃ book_data, loads text = Parsed book_data [] ∧
     json_load text st = (Val book_data, st)) ∨
  (loads text = Malformed ∧ json_load text st = (Exc JSONDecodeError, st)).
Proof.
  unfold json_load. destruct (loads text) as [v r| |] eqn:Hl.
  - left. exists v. split; [|done]. unfold loads in Hl.
    by repeat (case_match; simplify_eq).
  - by right.
  - by destruct (JsonFacts.loads_fuel text).
Qed.

(** ** The properties of the specification on the example store *)

(** The target of [change_status] need not be the first record. *)
Example change_status_second_record :
  ∃ st', change_status (literal "b") token_1 example_store = (Val msg_status_changed, st') ∧
         map (λ book, status (heap st' book)) (books st') = [status_new; status_available].
Proof. by eexists. Qed.

(** Union over the criteria, whatever the case of the letters: "DUNE" selects
    the first record and "orwell" the second. *)
Example search_book_union :
  ∃ results,
    search_book ascii_lower [literal "DUNE"; literal "orwell"]
      example_store = (Val results, example_store) ∧
    ∀ book, book ∈ results ↔ book = 0 ∨ book = 1.
Proof.
  eexists. split; [reflexivity|]. intros book.
  rewrite elem_of_search_fold. split.
  - intros [H|[H _]]; [by apply elem_of_empty in H|].
    simpl in H. rewrite !elem_of_cons, elem_of_nil in H. tauto.
  - intros [-> | ->]; right; (split; [simpl; rewrite !elem_of_cons; tauto|]).
    + exists (literal "DUNE"). split; [set_solver | reflexivity].
    + exists (literal "orwell"). split; [set_solver | reflexivity].
Qed.

(** After [add_book] and a restart ([__init__] on the file that was written)
    the store holds the records it held before, with the new one last. *)
Lemma add_book_then_restart (st : state) (b : loc) :
  ∃ st',
    Books_Library_init (add_book b st).2 = (Val (), st') ∧
    map (heap st') (books st') = map (heap st) (books st) ++ [heap st b].
Proof.
  pose (st0 := mkState (heap st) (next_loc st) (books st ++ [b]) (file st) (stdout st)).
  pose (st1 := mkState (heap (save_book_database st0).2) (next_loc st)
                 (books st ++ [b]) (file (save_book_database st0).2)
                 (stdout st ++ [msg_added])).
  destruct (build_books_records (map (heap st) (books st ++ [b])) st1)
    as (st' & Hrun & Hmap' & _ & _ & _ & _).
  exists (mkState (heap st') (next_loc st')
            (seq (next_loc st1) (length (map (heap st) (books st ++ [b]))))
            (file st') (stdout st')).
  split.
  - unfold Books_Library_init, load_book_library, try_except, mbind, M_bind, read_file.
    change (add_book b st).2 with st1. simpl file. unfold json_load.
    rewrite <- (map_map (heap st) book_dict), JsonFacts.loads_dump.
    + unfold mret, M_ret, lift. simpl iterate. rewrite map_map, Hrun. reflexivity.
    + apply Forall_forall. intros d (x & -> & _)%list_elem_of_fmap. simpl. lia.
  - cbn [heap books]. rewrite Hmap', map_app. reflexivity.
Qed.

(** ** More on [load_book_library] and [__init__] *)

Lemma skip_ws_blank (text : pystr) :
  Forall (λ c, is_ws c = true) text → skip_ws text = [].
Proof. induction 1 as [|c text Hc _ IH]; [done|]. simpl. by rewrite Hc. Qed.

Lemma loads_blank (text : pystr) :
  Forall (λ c, is_ws c = true) text → loads text = Malformed.
Proof.
  intros Hb. unfold loads. rewrite (skip_ws_blank text Hb).
  destruct Hb as [|c text Hc Hb]; [done|].
  unfold is_ws in Hc. rewrite !orb_true_iff, !N.eqb_eq in Hc.
  by destruct Hc as [[[-> | ->] | ->] | ->].
Qed.


Lemma build_books_frame (items : list json) (st : state) :
  books (build_books items st).2 = books st ∧
  file (build_books items st).2 = file st ∧
  stdout (build_books items st).2 = stdout st ∧
  (∀ l, l < next_loc st → heap (build_books items st).2 l = heap st l).
Proof.
  revert st. induction items as [|item items IH]; intros st; [done|].
  cbn [build_books]. unfold mbind, M_bind, lift, alloc.
  destruct (Books_kwargs item) as [b|e]; [|done].
  match goal with |- context [build_books items ?s] =>
    destruct (IH s) as (Hb & Hf & Ho & Hh); destruct (build_books items s) as [[ls|e] st']
  end; simpl in *; (repeat split; try done);
  intros l Hl; (rewrite Hh by lia); (rewrite fn_lookup_insert_ne; [done | lia]).
Qed.

Lemma load_book_library_frame (st : state) :
  books (load_book_library st).2 = books st ∧
  file (load_book_library st).2 = file st ∧
  (∀ l, l < next_loc st → heap (load_book_library st).2 l = heap st l).
Proof.
  unfold load_book_library, try_except, mbind, M_bind, read_file, json_load.
  destruct (file st) as [text|] eqn:Hfile; [|by rewrite ?Hfile].
  destruct (loads text) as [v r| |]; [|simpl; by rewrite Hfile..].
  unfold mret, M_ret, lift.
  destruct (iterate v) as [items|e]; [|by destruct e; simpl; rewrite ?Hfile].
  destruct (build_books_frame items st) as (Hb & Hf & _ & Hh).
  destruct (build_books items st) as [[ls|e] st']; simpl in *.
  - by rewrite <- Hfile.
  - destruct e; simpl; rewrite ?Hb, ?Hf, ?Hfile; done.
Qed.



Lemma dict_get_elem (k : pystr) (v : json) (d : list (pystr * json)) :
  NoDup (map fst d) → (k, v) ∈ d → dict_get k d = Some v.
Proof.
  unfold dict_get. induction d as [|[k' v'] d IH]; intros Hnd Hin.
  - by apply elem_of_nil in Hin.
  - apply NoDup_cons in Hnd as [Hk' Hnd]. simpl.
    apply elem_of_cons in Hin as [[= <- <-]|Hin].
    + by rewrite bool_decide_eq_true_2.
    + rewrite bool_decide_eq_false_2; [by apply IH|].
      simpl. intros ->. apply Hk'. by apply (list_elem_of_fmap_2 fst _ (k, v)).
Qed.

Lemma Books_kwargs_permutation (d : list (pystr * json)) (b : Books) :
  d ≡ₚ map str_pair (book_dict b) → Books_kwargs (JDict d) = Val b.
Proof.
  intros Hp. assert (Hnd : NoDup (map fst d)).
  { rewrite Hp. apply (bool_decide_unpack _). by vm_compute. }
  assert (Hlen : length d = 5) by (by rewrite Hp).
  assert (Hin : ∀ kv, kv ∈ map str_pair (book_dict b) → kv ∈ d).
  { intros kv. by rewrite Hp. }
  unfold Books_kwargs.
  rewrite (dict_get_elem key_id (JStr (id b))), (dict_get_elem key_title (JStr (title b))),
    (dict_get_elem key_author (JStr (author b))), (dict_get_elem key_year (JStr (year b))),
    (dict_get_elem key_status (JStr (status b)));
    try done; try (apply Hin; simpl; rewrite !elem_of_cons; tauto).
  rewrite bool_decide_eq_true_2 by done. by destruct b.
Qed.

(** X1: when the backing file does not exist, [load_book_library] returns
    the empty list, prints nothing and changes nothing. *)
Theorem load_absent_file (st : state) :
  file st = None → load_book_library st = (Val [], st).
Proof. apply load_book_library_absent. Qed.

Lemma load_absent_file_witness :
  file empty_store = None ∧ load_book_library empty_store = (Val [], empty_store).
Proof. split; [reflexivity | apply load_absent_file; reflexivity]. Defined.



(** X3: an empty backing file, or one that holds white space only, is
    treated as corrupt, not as an empty library: the diagnostic is printed
    (and the empty list returned). *)
Theorem load_blank_file (st : state) (text : pystr) :
  file st = Some text →
  Forall (λ c, c = ch_space ∨ c = ch_tab ∨ c = ch_newline ∨ c = ch_return) text →
  ∃ st', load_book_library st = (Val [], st') ∧
         stdout st' = stdout st ++ [msg_load_error].
Proof.
  intros Hf Hb. eexists. split.
  - apply (load_book_library_malformed st text Hf), loads_blank.
    eapply Forall_impl; [exact Hb|]. by intros c [-> | [-> | [-> | ->]]].
  - reflexivity.
Qed.

Lemma load_blank_file_witness :
  ∃ st', load_book_library (mkState example_heap 2 [] (Some []) []) = (Val [], st') ∧
         stdout st' = [] ++ [msg_load_error].
Proof.
  apply (load_blank_file (mkState example_heap 2 [] (Some []) []) []);
    [reflexivity | constructor].
Defined.

(** X4: a backing file whose JSON value is an empty list, an empty object
    or an empty string loads as the empty list, silently. *)
Theorem load_empty_container (st : state) (text : pystr) (v : json) :
  file st = Some text →
  loads text = Parsed v [] →
  v = JList [] ∨ v = JDict [] ∨ v = JStr [] →
  load_book_library st = (Val [], st).
Proof.
  intros Hf Ht Hv. unfold load_book_library, json_load. run. rewrite Hf, Ht.
  by destruct Hv as [-> | [-> | ->]].
Qed.

Lemma load_empty_container_witness :
  load_book_library (mkState example_heap 2 [] (Some [ch_lbrace; ch_rbrace]) []) =
    (Val [], mkState example_heap 2 [] (Some [ch_lbrace; ch_rbrace]) []).
Proof.
  apply (load_empty_container _ [ch_lbrace; ch_rbrace] (JDict []));
    [reflexivity | reflexivity | tauto].
Defined.



(** X6: the order of the keys in a record of the file does not matter:
    [Books( **book)] builds the same record from the five pairs in any
    order. *)
Theorem Books_kwargs_any_key_order (d : list (pystr * json)) (b : Books) :
  d ≡ₚ map str_pair (book_dict b) → Books_kwargs (JDict d) = Val b.
Proof. apply Books_kwargs_permutation. Qed.

Lemma Books_kwargs_any_key_order_witness :
  Books_kwargs (JDict (reverse (map str_pair (book_dict example_dune)))) = Val example_dune.
Proof. apply Books_kwargs_any_key_order. apply reverse_Permutation. Defined.



(** X8: whatever the backing file holds and however it ends,
    [load_book_library] leaves the file, the list [self.books] and the
    fields of the objects that exist as they were. *)
Theorem load_changes_nothing (st : state) :
  books (load_book_library st).2 = books st ∧
  file (load_book_library st).2 = file st ∧
  (∀ l, l < next_loc st → heap (load_book_library st).2 l = heap st l).
Proof. apply load_book_library_frame. Qed.





Lemma dump_book_dicts_inj (bs1 bs2 : list Books) :
  dump (map book_dict bs1) = dump (map book_dict bs2) → bs1 = bs2.
Proof.
  intros Hd. apply (f_equal loads) in Hd.
  rewrite !JsonFacts.loads_dump in Hd;
    try (apply Forall_forall; intros d (b & -> & _)%list_elem_of_fmap; simpl; lia).
  injection Hd as Hd. rewrite !map_map in Hd.
  apply (f_equal (map Books_kwargs)) in Hd. rewrite !map_map in Hd.
  rewrite !(map_ext _ Val Books_kwargs_book_dict) in Hd.
  revert bs2 Hd. induction bs1 as [|b1 bs1 IH]; intros [|b2 bs2] Hd; simplify_eq/=;
    [done|]. f_equal. by apply IH.
Qed.

(** X11: the text that [save_book_database] writes determines the records:
    two stores that write the same text hold the same records in the same
    order. *)
Theorem saved_file_determines_records (st1 st2 : state) :
  file (save_book_database st1).2 = file (save_book_database st2).2 →
  map (heap st1) (books st1) = map (heap st2) (books st2).
Proof.
  simpl. intros [= Hd]. apply dump_book_dicts_inj. by rewrite !map_map.
Qed.

Lemma saved_file_determines_records_witness :
  map (heap example_store) (books example_store) =
  map (heap (save_book_database example_store).2) (books (save_book_database example_store).2).
Proof. apply saved_file_determines_records. reflexivity. Defined.

(** ** How the operations compose *)

Lemma present_ext (st st' : state) (i : pystr) :
  books st' = books st →
  (∀ l, id (heap st' l) = id (heap st l)) →
  present st' i ↔ present st i.
Proof.
  intros Hb Hid. unfold present. rewrite Hb. by setoid_rewrite Hid.
Qed.


Lemma change_status_cases (st : state) (i new_status : pystr) :
  (∃ pre book post, first_match st i pre book post ∧
     change_status i new_status st =
       (Val msg_status_changed, updated st book (selected_status new_status))) ∨
  (¬ present st i ∧ (change_status i new_status st).2 = st).
Proof.
  destruct (find (has_id st i) (books st)) as [book|] eqn:Hf.
  - left. assert (Hp : present st i) by (apply present_find; by exists book).
    apply present_first_match in Hp as (pre & book' & post & Hfm).
    exists pre, book', post. split; [done | by eapply change_status_found].
  - right. apply not_present_find in Hf. split; [done|].
    by rewrite change_status_absent.
Qed.



(** X13: whatever its outcome, [change_status] changes nothing but a status:
    the collection is the same list, every object keeps its identifier,
    title, author and year, hence the same identifiers are present and
    identifiers that were unique stay unique. *)
Theorem change_status_keeps_records (st : state) (i new_status : pystr) :
  let st' := (change_status i new_status st).2 in
  books st' = books st ∧
  (∀ l, id (heap st' l) = id (heap st l) ∧ title (heap st' l) = title (heap st l) ∧
        author (heap st' l) = author (heap st l) ∧ year (heap st' l) = year (heap st l)) ∧
  (∀ j, present st' j ↔ present st j) ∧
  (unique_ids st → unique_ids st').
Proof.
  intros st'. subst st'.
  destruct (change_status_cases st i new_status)
    as [(pre & book & post & Hfm & ->) | [_ ->]].
  - assert (Hf : ∀ l, id (heap (updated st book (selected_status new_status)) l) = id (heap st l) ∧
        title (heap (updated st book (selected_status new_status)) l) = title (heap st l) ∧
        author (heap (updated st book (selected_status new_status)) l) = author (heap st l) ∧
        year (heap (updated st book (selected_status new_status)) l) = year (heap st l)).
    { intros l. unfold updated. simpl. destruct (decide (book = l)) as [->|Hne].
      - by rewrite fn_lookup_insert.
      - by rewrite fn_lookup_insert_ne. }
    split; [done|]. split; [done|]. split.
    + intros j. apply present_ext; [done | intros l; apply Hf].
    + unfold unique_ids. simpl books.
      by rewrite (map_ext _ (λ l, id (heap st l)) (λ l, proj1 (Hf l))).
  - done.
Qed.



Lemma present_app_cons (st : state) (j : pystr) (pre post : list loc) (book : loc)
    (l : list loc) :
  l = pre ++ book :: post →
  (∃ b, b ∈ l ∧ id (heap st b) = j) ↔
  id (heap st book) = j ∨ ∃ b, b ∈ pre ++ post ∧ id (heap st b) = j.
Proof.
  intros ->. split.
  - intros (b & Hin & Hb). rewrite elem_of_app, elem_of_cons in Hin.
    destruct Hin as [Hin|[-> | Hin]]; [right|by left|right];
      exists b; (split; [|done]); rewrite elem_of_app; tauto.
  - intros [Hb|(b & Hin & Hb)].
    + exists book. split; [|done]. rewrite elem_of_app, elem_of_cons. tauto.
    + exists b. split; [|done]. rewrite elem_of_app, elem_of_cons.
      rewrite elem_of_app in Hin. tauto.
Qed.

(** X15: a [delete_book] that finds its record takes one record out and
    keeps the rest in order: the collection is shorter by one and is a
    sublist of what it was, the presence of every other identifier is
    unchanged, and identifiers that were unique stay unique. *)
Theorem delete_book_keeps_others (st : state) (i : pystr) :
  present st i →
  let st' := (delete_book i st).2 in
  length (books st') + 1 = length (books st) ∧
  books st' `sublist_of` books st ∧
  (∀ j, j ≠ i → (present st' j ↔ present st j)) ∧
  (unique_ids st → unique_ids st').
Proof.
  intros (pre & book & post & Hfm)%present_first_match. cbv zeta.
  rewrite (delete_book_found _ _ _ _ _ Hfm). destruct Hfm as (Hb & Hpre & Hid).
  simpl. rewrite Hb. split; [|split; [|split]].
  - rewrite !length_app. simpl. lia.
  - apply sublist_app; [done|]. by apply sublist_cons.
  - intros j Hj. unfold present. simpl. rewrite Hb.
    rewrite (present_app_cons st j pre post book _ eq_refl). split; [tauto|].
    intros [?|?]; [congruence | done].
  - unfold unique_ids. simpl. rewrite Hb, !map_app. simpl.
    rewrite !NoDup_app. intros (Hn1 & Hdisj & Hn2).
    apply NoDup_cons in Hn2 as [_ Hn2]. split; [done|]. split; [|done].
    intros x Hx Hx'. apply (Hdisj x Hx). by right.
Qed.

Lemma delete_book_keeps_others_witness :
  present example_store (literal "a") ∧
  length (books (delete_book (literal "a") example_store).2) + 1 =
    length (books example_store).
Proof.
  assert (Hp : present example_store (literal "a")).
  { exists 0%nat. split; [set_solver | reflexivity]. }
  split; [exact Hp|].
  exact (proj1 (delete_book_keeps_others example_store (literal "a") Hp)).
Defined.





(** X18: [add_book] keeps identifiers unique exactly when the identifier of
    the new record is not yet in the collection: it makes no check of its
    own. *)
Theorem add_book_unique_ids (st : state) (b : loc) :
  unique_ids (add_book b st).2 ↔ unique_ids st ∧ ¬ present st (id (heap st b)).
Proof.
  unfold unique_ids, present. simpl. rewrite map_app. simpl.
  rewrite NoDup_app. split.
  - intros (Hn & Hdisj & _). split; [done|]. intros (l & Hl & Hid).
    apply (Hdisj (id (heap st b))); [|by left].
    rewrite <- Hid. by apply (list_elem_of_fmap_2 (λ x, id (heap st x))).
  - intros [Hn Hfresh]. split; [done|]. split; [|apply NoDup_singleton].
    intros x (l & -> & Hl)%list_elem_of_fmap Hx%list_elem_of_singleton.
    apply Hfresh. by exists l.
Qed.

(** ** More on [search_book] *)

Section SearchMore.

Variable lower : pystr → pystr.

Lemma substring_refl (s : pystr) : substring s s.
Proof. exists [], []. by rewrite app_nil_r. Qed.

(** X19: the result of [search_book] holds records of the collection only,
    and searching for the whole value of one of its fields always finds a
    record, whatever lower-casing does to the text. *)
Theorem search_book_finds_field (st : state) (criterion : list pystr) :
  ∃ results,
    search_book lower criterion st = (Val results, st) ∧
    (∀ book, book ∈ results → book ∈ books st) ∧
    (∀ book v, book ∈ books st → field_value (heap st book) v → v ∈ criterion →
       book ∈ results).
Proof.
  eexists. split; [reflexivity|]. split.
  - intros book Hb. apply elem_of_search_fold in Hb as [Hb|[Hb _]]; [|done].
    by apply elem_of_empty in Hb.
  - intros book v Hb Hv Hc. apply elem_of_search_fold. right. split; [done|].
    exists v. split; [done|]. apply matches_spec. exists v. split; [done|].
    apply substring_refl.
Qed.

(** X20: the result for a list of criteria is the union of the results for
    its parts: searching for [c1 ++ c2] gives what searching for [c1] and
    for [c2] give together. *)
Theorem search_book_app (st : state) (c1 c2 : list pystr) :
  ∃ r1 r2,
    search_book lower c1 st = (Val r1, st) ∧
    search_book lower c2 st = (Val r2, st) ∧
    search_book lower (c1 ++ c2) st = (Val (r1 ∪ r2), st).
Proof.
  eexists _, _. split; [reflexivity|]. split; [reflexivity|].
  unfold search_book. run. do 2 f_equal. apply set_eq. intros book.
  rewrite elem_of_union, !elem_of_search_fold, elem_of_empty.
  setoid_rewrite elem_of_app. split.
  - intros [[]|(Hb & c & [Hc|Hc] & Hm)]; [left|right]; right; eauto.
  - intros [[[]|(Hb & c & Hc & Hm)]|[[]|(Hb & c & Hc & Hm)]];
      right; (split; [done|]); exists c; tauto.
Qed.

(** X21: only the set of criteria counts: two lists with the same elements,
    in any order and with any repetitions, give the same result. *)
Theorem search_book_same_criteria (st : state) (c1 c2 : list pystr) :
  (∀ crit, crit ∈ c1 ↔ crit ∈ c2) →
  search_book lower c1 st = search_book lower c2 st.
Proof.
  intros Hc. unfold search_book. run. do 2 f_equal. apply set_eq. intros book.
  rewrite !elem_of_search_fold. by setoid_rewrite Hc.
Qed.

End SearchMore.

Lemma search_book_same_criteria_witness :
  search_book ascii_lower [literal "dune"; literal "orwell"; literal "dune"] example_store =
  search_book ascii_lower [literal "orwell"; literal "dune"] example_store.
Proof.
  apply search_book_same_criteria. intros crit. rewrite !elem_of_cons, elem_of_nil. tauto.
Defined.

(** ** [str.split] on the search line *)

Lemma split_comma_space_cons (c : char) (s : pystr) :
  split_comma_space (c :: s) =
    if (c =? ch_comma)%N then
      match s with
      | d :: s'' =>
          if (d =? ch_space)%N then [] :: split_comma_space s''
          else cons_head c (split_comma_space s)
      | [] => cons_head c (split_comma_space s)
      end
    else cons_head c (split_comma_space s).
Proof. reflexivity. Qed.

Lemma split_comma_space_nonempty (s : pystr) : split_comma_space s ≠ [].
Proof.
  assert (H : ∀ s, split_comma_space s ≠ [] ∧ ∀ c, split_comma_space (c :: s) ≠ []).
  { clear s. induction s as [|d s [IH1 IH2]].
    - split; [done|]. intros c. rewrite split_comma_space_cons. by destruct (c =? 44)%N.
    - split; [apply IH2|]. intros c. rewrite split_comma_space_cons.
      destruct (c =? 44)%N; [destruct (d =? 32)%N; [done|]|];
        (destruct (split_comma_space (d :: s)) eqn:E; [by destruct (IH2 d) | done]). }
  apply H.
Qed.

Lemma join_cons_head (c : char) (pieces : list pystr) :
  pieces ≠ [] →
  join_comma_space (cons_head c pieces) = c :: join_comma_space pieces.
Proof. destruct pieces as [|p [|q ps]]; done. Qed.

Lemma join_split_aux (s : pystr) :
  join_comma_space (split_comma_space s) = s ∧
  ∀ c, join_comma_space (split_comma_space (c :: s)) = c :: s.
Proof.
  induction s as [|d s [IH1 IH2]].
  - split; [done|]. intros c. rewrite split_comma_space_cons. by destruct (c =? 44)%N.
  - split; [apply IH2|]. intros c. rewrite split_comma_space_cons.
    destruct (N.eqb_spec c 44) as [->|Hc]; [destruct (N.eqb_spec d 32) as [->|Hd]|].
    + unfold join_comma_space in *.
      pose proof (split_comma_space_nonempty s) as Hne.
      destruct (split_comma_space s) as [|p ps] eqn:E; [done|].
      change (join_chunks [44; 32]%N ([] :: p :: ps))
        with ([44; 32]%N ++ join_chunks [44; 32]%N (p :: ps)).
      by rewrite IH1.
    + rewrite join_cons_head by apply split_comma_space_nonempty. by rewrite IH2.
    + rewrite join_cons_head by apply split_comma_space_nonempty. by rewrite IH2.
Qed.

(** X22: joining the pieces of [criterion.split(", ")] with ", " gives the
    line back: the split loses nothing and there is always at least one
    piece. *)
Theorem split_then_join (s : pystr) :
  split_comma_space s ≠ [] ∧ join_comma_space (split_comma_space s) = s.
Proof. split; [apply split_comma_space_nonempty | apply join_split_aux]. Qed.

Lemma substring_pair_cons (a b c : char) (p : pystr) :
  substring [a; b] (c :: p) ↔ (c = a ∧ ∃ p', p = b :: p') ∨ substring [a; b] p.
Proof.
  unfold substring. split.
  - intros (pre & post & H). destruct pre as [|x pre]; simpl in H.
    + injection H as -> ->. left. split; [done | by eexists].
    + injection H as -> ->. right. by exists pre, post.
  - intros [[-> [p' ->]]|(pre & post & ->)].
    + by exists [], p'.
    + by exists (c :: pre), post.
Qed.

Lemma substring_pair_nil (a b : char) : ¬ substring [a; b] [].
Proof. intros (pre & post & H). by destruct pre. Qed.

Lemma split_pieces_aux (s : pystr) :
  let good s :=
    Forall (λ p, ¬ substring [ch_comma; ch_space] p) (split_comma_space s) ∧
    ∃ p ps rest, split_comma_space s = p :: ps ∧ s = p ++ rest in
  good s ∧ ∀ c, good (c :: s).
Proof.
  cbv zeta. induction s as [|d s [IH1 IH2]].
  - split.
    + split; [|by exists [], [], []]. repeat constructor. apply substring_pair_nil.
    + intros c. rewrite split_comma_space_cons. simpl.
      assert (¬ substring [44; 32]%N [c]).
      { rewrite substring_pair_cons. intros [[_ [? ?]]|?%substring_pair_nil]; done. }
      destruct (c =? 44)%N; (split; [by repeat constructor | by exists [c], [], []]).
  - split; [apply IH2|]. intros c. rewrite split_comma_space_cons.
    destruct (IH2 d) as (Hall & p & ps & rest & Hsp & Hs).
    assert (Hcons : (c = 44%N → ∀ p', p ≠ 32%N :: p') →
      Forall (λ p, ¬ substring [44; 32]%N p) (cons_head c (split_comma_space (d :: s))) ∧
      ∃ p0 ps0 rest0, cons_head c (split_comma_space (d :: s)) = p0 :: ps0 ∧
        c :: d :: s = p0 ++ rest0).
    { intros Hc. rewrite Hsp in Hall |- *. simpl. apply Forall_cons in Hall as [Hp Hps].
      split.
      - apply Forall_cons. split; [|done]. rewrite substring_pair_cons.
        intros [[-> [p' ->]]|?]; [by eapply Hc | done].
      - exists (c :: p), ps, rest. split; [done|]. by rewrite Hs. }
    destruct (N.eqb_spec c 44) as [->|Hc]; [destruct (N.eqb_spec d 32) as [->|Hd]|].
    + destruct IH1 as [Hall1 _]. split.
      * apply Forall_cons. split; [apply substring_pair_nil | done].
      * by exists [], (split_comma_space s), (44%N :: 32%N :: s).
    + apply Hcons. intros _ p' ->. simpl in Hs. by injection Hs.
    + by apply Hcons.
Qed.

(** X23: no piece of [criterion.split(", ")] contains a comma followed by a
    space: every occurrence of the separator in the line is used. *)
Theorem split_pieces_have_no_separator (s : pystr) (p : pystr) :
  p ∈ split_comma_space s → ¬ substring [ch_comma; ch_space] p.
Proof.
  intros Hp. destruct (split_pieces_aux s) as [[Hall _] _].
  rewrite Forall_forall in Hall. by apply Hall.
Qed.

Lemma split_example_piece :
  literal "a" ∈ split_comma_space (literal "a, b").
Proof. vm_compute. left. Qed.

Lemma split_pieces_have_no_separator_witness :
  literal "a" ∈ split_comma_space (literal "a, b") ∧
  ¬ substring [ch_comma; ch_space] (literal "a").
Proof.
  split; [exact split_example_piece|].
  exact (split_pieces_have_no_separator (literal "a, b") (literal "a")
           split_example_piece).
Defined.

(** ** The branches of [main] *)

Lemma print_books_stdout (results : list loc) (st : state) :
  print_books results st =
    (Val (), mkState (heap st) (next_loc st) (books st) (file st)
               (stdout st ++ map (rendering st) results)).
Proof.
  revert st. induction results as [|book results IH]; intros st.
  - simpl. unfold mret, M_ret. by rewrite app_nil_r, state_eta.
  - cbn [print_books]. unfold print2. run. rewrite IH. simpl.
    by rewrite <- app_assoc.
Qed.








(** X25: the failure of [change_status] on an empty collection reaches the
    user: on a library without records, choice 5 with the token "1" or "2"
    ends in [UnboundLocalError], before anything is printed. *)
Theorem menu_change_status_empty_library (st : state) (i new_status : pystr) :
  books st = [] →
  new_status = token_1 ∨ new_status = token_2 →
  menu_change_status i new_status st = (Exc UnboundLocalError, st).
Proof.
  intros Hb Ht. unfold menu_change_status.
  assert (Hc : change_status i new_status st = (Exc UnboundLocalError, st)).
  { unfold change_status. run. by rewrite Hb. }
  destruct Ht as [-> | ->];
    (destruct (bool_decide _ || bool_decide _) eqn:E; [|by vm_compute in E]);
    unfold mbind, M_bind; by rewrite Hc.
Qed.

Lemma menu_change_status_empty_library_witness :
  menu_change_status (literal "a") token_2 empty_store = (Exc UnboundLocalError, empty_store).
Proof.
  apply menu_change_status_empty_library; [reflexivity | by right].
Defined.

(** X26: choice 4 of the menu prints the rendering of every record of the
    collection, one [print] per record, in the order of the collection, or
    the empty-library message when there is none; it changes nothing else. *)
Theorem menu_show_all_prints (st : state) :
  menu_show_all st =
    (Val (), mkState (heap st) (next_loc st) (books st) (file st)
               (stdout st ++
                match books st with
                | [] => [msg_library_empty]
                | _ :: _ => map (rendering st) (books st)
                end)).
Proof.
  unfold menu_show_all, show_all_books. run.
  destruct (books st) as [|b bs] eqn:Hb; [by rewrite Hb|].
  rewrite print_books_stdout. by rewrite Hb.
Qed.

(** ** [Books.__str__] *)

Lemma app_newline_inj (a a' r r' : pystr) :
  ch_newline ∉ a → ch_newline ∉ a' →
  a ++ ch_newline :: r = a' ++ ch_newline :: r' → a = a' ∧ r = r'.
Proof.
  revert a'. induction a as [|c a IH]; intros [|c' a'] Ha Ha' H; simpl in H.
  - by injection H as ->.
  - injection H as <- _. destruct Ha'. by left.
  - injection H as -> _. destruct Ha. by left.
  - injection H as -> H. destruct (IH a') as [-> ->]; try done.
    + intros ?. apply Ha. by right.
    + intros ?. apply Ha'. by right.
Qed.

(** X27: the rendering of [__str__] tells records apart: two records whose
    identifier, title, author and year contain no newline (as is the case
    for text read with [input()]) and that render to the same text have the
    same five fields. *)
Theorem Books_str_inj (b1 b2 : Books) :
  single_line_fields b1 → single_line_fields b2 →
  Books_str b1 = Books_str b2 → b1 = b2.
Proof.
  intros (Hi1 & Ht1 & Ha1 & Hy1) (Hi2 & Ht2 & Ha2 & Hy2).
  destruct b1 as [i1 t1 a1 y1 s1], b2 as [i2 t2 a2 y2 s2].
  cbn [id title author year status] in *.
  unfold Books_str. cbn [id title author year status]. intros H.
  change ([10%N] ++ ?x) with (10%N :: x) in H.
  do 4 (apply app_inv_head in H; apply app_newline_inj in H as [-> H]; [|done..]).
  apply app_inv_head in H. by subst.
Qed.

Lemma Books_str_inj_witness :
  single_line_fields example_dune ∧ single_line_fields example_1984 ∧
  (Books_str example_dune = Books_str example_1984 → example_dune = example_1984).
Proof.
  assert (H1 : single_line_fields example_dune).
  { repeat split; apply (bool_decide_unpack _); by vm_compute. }
  assert (H2 : single_line_fields example_1984).
  { repeat split; apply (bool_decide_unpack _); by vm_compute. }
  split; [exact H1|]. split; [exact H2|].
  exact (Books_str_inj example_dune example_1984 H1 H2).
Defined.
